(** * Game tree with minimax and alpha-beta pruning

    Shallow embedding of [arboles_cast_enunciado.py]: the class [Nodo],
    the generator [crear_arbol], the marker [marca_podado] and the two
    evaluators [alfa_beta] and [alfa_beta_reverso].

    The Python code mutates the nodes of a tree in place.  A tree owns its
    children (no node is shared), so the mutation is modelled by state
    passing: every operation returns the tree as it is after the call. *)

From Stdlib Require Import ZArith List Bool Lia Arith Sorted.
From Stdlib Require String Ascii DecimalString.
Import ListNotations.
Import String.StringSyntax.
Delimit Scope string_scope with string.

(** * The program *)

(** ** Values

    The values of the nodes are Python floats.  The program never does
    arithmetic on them: it only compares them ([max], [min], [>=]) against
    each other and against [float('inf')] and [-float('inf')].  They are
    modelled as a linear order with a least and a greatest element: the
    two infinities and, between them, the finite values as integers. *)

Inductive ext : Type :=
| MenosInf
| Fin (z : Z)
| MasInf.

Definition ext_leb (a b : ext) : bool :=
  match a, b with
  | MenosInf, _ => true
  | _, MasInf => true
  | Fin x, Fin y => (x <=? y)%Z
  | _, _ => false
  end.

Definition ext_ltb (a b : ext) : bool := negb (ext_leb b a).

(** [a >= b] of the source. *)
Definition ext_geb (a b : ext) : bool := ext_leb b a.

(** Python's [max(a, b)] returns [b] only when [b > a]; [min(a, b)] returns
    [b] only when [b < a]. *)
Definition maximo (a b : ext) : ext := if ext_ltb a b then b else a.
Definition minimo (a b : ext) : ext := if ext_ltb b a then b else a.

Definition ext_le (a b : ext) : Prop := ext_leb a b = true.
Definition ext_lt (a b : ext) : Prop := ext_ltb a b = true.

(** ** The class [Nodo] *)

#[warnings="-register-all"]
Inductive Nodo : Type := mkNodo {
  id : Z;
  valor : option ext;
  hijos : list Nodo;
  es_max : bool;
  podado : bool
}.

(** [Nodo.__init__(identificador, valor=None, es_max=True)]. *)
Definition Nodo_init (identificador : Z) (v : option ext) (em : bool) : Nodo :=
  mkNodo identificador v [] em false.

(** [Nodo.es_hoja]: [len(self.hijos) == 0]. *)
Definition es_hoja (n : Nodo) : bool :=
  match hijos n with
  | [] => true
  | _ :: _ => false
  end.

(** [Nodo.anadir_hijo]: [self.hijos.append(nodo)]. *)
Definition anadir_hijo (n hijo : Nodo) : Nodo :=
  mkNodo (id n) (valor n) (hijos n ++ [hijo]) (es_max n) (podado n).

(** A node of a tree is named by its route from the root: the positions
    of the children to follow. *)
Definition ruta : Type := list nat.

(** The node at the end of a route. *)
Fixpoint subarbol (n : Nodo) (p : ruta) : option Nodo :=
  match p with
  | [] => Some n
  | i :: q =>
      match nth_error (hijos n) i with
      | Some h => subarbol h q
      | None => None
      end
  end.

(** All the nodes of a tree, in pre-order. *)
Fixpoint nodos (n : Nodo) : list Nodo :=
  n :: flat_map nodos (hijos n).

(** The identifiers of a tree in pre-order. *)
Definition ids (n : Nodo) : list Z := map id (nodos n).

(** ** The generator [crear_arbol] *)

Section Generador.

(** [factor_ramificacion] and [profundidad] of [crear_arbol]; [sorteo k]
    is the value that the [k]-th call of
    [random.uniform(min_valor, max_valor)] returns. *)
Variables (factor_ramificacion profundidad : Z) (sorteo : nat -> Z).

(** The state the generation threads: the [nonlocal contador_id] and the
    number of values drawn from the random source. *)
Record estado : Type := mkEstado {
  contador_id : Z;
  sorteados : nat
}.

(** [for _ in range(k): hijo = genera_hijo(); nodo.anadir_hijo(hijo)]. *)
Fixpoint repite (k : nat) (genera_hijo : estado -> option (Nodo * estado))
         (nodo : Nodo) (st : estado) : option (Nodo * estado) :=
  match k with
  | O => Some (nodo, st)
  | S k' =>
      match genera_hijo st with
      | None => None
      | Some (hijo, st') =>
          repite k' genera_hijo (anadir_hijo nodo hijo) st'
      end
  end.

(** [_generar_subarbol(prof_actual, es_max)].  The recursion is on
    [prof_actual + 1]; [combustible] bounds its depth, and [None] is the
    bound reached. *)
Fixpoint _generar_subarbol (combustible : nat) (prof_actual : Z) (em : bool)
         (st : estado) : option (Nodo * estado) :=
  match combustible with
  | O => None
  | S combustible' =>
      let identificador_actual := contador_id st in
      let st1 := mkEstado (contador_id st + 1) (sorteados st) in
      let nodo := Nodo_init identificador_actual None em in
      if (profundidad <=? prof_actual)%Z
      then
        Some (mkNodo (id nodo) (Some (Fin (sorteo (sorteados st1))))
                     (hijos nodo) (es_max nodo) (podado nodo),
              mkEstado (contador_id st1) (S (sorteados st1)))
      else
        repite (Z.to_nat factor_ramificacion)
               (_generar_subarbol combustible' (prof_actual + 1) (negb em))
               nodo st1
  end.

Definition crear_arbol (combustible : nat) (raiz_es_max : bool)
  : option Nodo :=
  option_map fst
    (_generar_subarbol combustible 0 raiz_es_max (mkEstado 0 0)).

End Generador.

(** ** [marca_podado] *)

Fixpoint marca_podado (nodo : Nodo) : Nodo :=
  mkNodo (id nodo) (valor nodo)
         (if es_hoja nodo then hijos nodo else map marca_podado (hijos nodo))
         (es_max nodo) true.

(** The routes of the lists [ls], the routes of the [j]-th list under the
    position [k + j]. *)
Definition bajo (k : nat) (ls : list (list ruta)) : list ruta :=
  concat (map (fun ih => map (cons (fst ih)) (snd ih))
              (combine (seq k (length ls)) ls)).

(** The calls of [marca_podado] made by [marca_podado(nodo)], each named by
    the route of the node it is applied to, in the order of the calls. *)
Fixpoint llamadas_marca_podado (nodo : Nodo) : list ruta :=
  [] :: (if es_hoja nodo then []
         else bajo 0 (map llamadas_marca_podado (hijos nodo))).

(** ** The evaluators [alfa_beta] and [alfa_beta_reverso] *)

(** Comparing a float with [None] raises [TypeError]. *)
Inductive resultado (A : Type) : Type :=
| Ok (a : A)
| TypeError.
Arguments Ok {A} a.
Arguments TypeError {A}.

(** What a call of an evaluator leaves behind: the returned value ([None]
    for a leaf that has no value), the node as the call has mutated it, and
    the routes (from the node) of the nodes the evaluator was called on. *)
Record salida : Type := mkSalida {
  retorno : option ext;
  arbol : Nodo;
  visitas : list ruta
}.

Definition llamada : Type := ext -> ext -> resultado salida.

(** [lista[i] = x]; the loops only write inside the list. *)
Fixpoint pon (i : nat) (x : Nodo) (l : list Nodo) : list Nodo :=
  match l, i with
  | [], _ => []
  | _ :: t, O => x :: t
  | h :: t, S j => h :: pon j x t
  end.

(** [for hijo_restante in nodo.hijos[k:]: marca_podado(hijo_restante)]. *)
Definition poda_desde (k : nat) (l : list Nodo) : list Nodo :=
  firstn k l ++ map marca_podado (skipn k l).

(** [valor = -float('inf')] at a MAX node, [float('inf')] at a MIN node. *)
Definition inicial (em : bool) : ext := if em then MenosInf else MasInf.

(** [max] at a MAX node, [min] at a MIN node. *)
Definition mejor (em : bool) (a b : ext) : ext :=
  if em then maximo a b else minimo a b.

(** The loop over the children of a node, lines 148-157 and 164-173 (and
    196-205, 212-221).  [pend] holds what is left of the iteration: each
    child as its position [i] in [nodo.hijos] (which is what
    [nodo.hijos.index(hijo)] finds: nodes are compared by identity) and the
    recursive call on it.  [hs] is [nodo.hijos] as mutated so far. *)
Fixpoint bucle (em : bool) (pend : list (nat * llamada))
         (v alfa beta : ext) (hs : list Nodo) (tr : list ruta)
  : resultado (ext * list Nodo * list ruta) :=
  match pend with
  | [] => Ok (v, hs, tr)
  | (i, evalua_hijo) :: pend' =>
      match evalua_hijo alfa beta with
      | TypeError => TypeError
      | Ok s =>
          match retorno s with
          | None => TypeError
          | Some vh =>
              let v' := mejor em v vh in
              let alfa' := if em then maximo alfa v' else alfa in
              let beta' := if em then beta else minimo beta v' in
              let hs' := pon i (arbol s) hs in
              let tr' := tr ++ map (cons i) (visitas s) in
              if ext_geb alfa' beta'
              then Ok (v', poda_desde (S i) hs', tr')
              else bucle em pend' v' alfa' beta' hs' tr'
          end
      end
  end.

(** The children of a node with their positions and the calls on them. *)
Definition pendientes (f : Nodo -> llamada) (hs : list Nodo)
  : list (nat * llamada) :=
  combine (seq 0 (length hs)) (map f hs).

(** What both evaluators do after the loop: [nodo.valor = valor] and
    [return valor]. *)
Definition cierra (nodo : Nodo)
           (r : resultado (ext * list Nodo * list ruta)) : resultado salida :=
  match r with
  | TypeError => TypeError
  | Ok (v, hs, tr) =>
      Ok (mkSalida (Some v)
                   (mkNodo (id nodo) (Some v) hs (es_max nodo) (podado nodo))
                   tr)
  end.

(** [alfa_beta], lines 131-176: [for hijo in nodo.hijos]. *)
Fixpoint alfa_beta (nodo : Nodo) (alfa beta : ext) {struct nodo}
  : resultado salida :=
  if es_hoja nodo then Ok (mkSalida (valor nodo) nodo [[]])
  else
    cierra nodo
      (bucle (es_max nodo) (pendientes alfa_beta (hijos nodo))
             (inicial (es_max nodo)) alfa beta (hijos nodo) [[]]).

(** [alfa_beta_reverso], lines 178-224: [for hijo in reversed(nodo.hijos)];
    the marking at a cutoff is the same [nodo.hijos[index(hijo) + 1:]]. *)
Fixpoint alfa_beta_reverso (nodo : Nodo) (alfa beta : ext) {struct nodo}
  : resultado salida :=
  if es_hoja nodo then Ok (mkSalida (valor nodo) nodo [[]])
  else
    cierra nodo
      (bucle (es_max nodo) (rev (pendientes alfa_beta_reverso (hijos nodo)))
             (inicial (es_max nodo)) alfa beta (hijos nodo) [[]]).

(** The two evaluators as the spec's [evaluate(node, alpha, beta, order)]. *)
Inductive Orden : Type := Adelante | Reverso.

Definition evaluate (o : Orden) : Nodo -> ext -> ext -> resultado salida :=
  match o with
  | Adelante => alfa_beta
  | Reverso => alfa_beta_reverso
  end.

(** ** [imprimir_arbol] *)

Local Infix "+++" := String.append (at level 60, right associativity).

(** [f"{nodo.id}"]: the decimal text of a Python integer. *)
Definition texto_id (z : Z) : String.string :=
  DecimalString.NilZero.string_of_int (Z.to_int z).

(** ["  " * nivel]. *)
Fixpoint sangria (nivel : nat) : String.string :=
  match nivel with
  | O => ""%string
  | S k => "  "%string +++ sangria k
  end.

(** The truth value of a float in [if nodo.valor:]: zero is false. *)
Definition es_cierto (v : ext) : bool :=
  match v with
  | Fin 0 => false
  | _ => true
  end.

(** [estado]: ["[PODADO]"] for a marked node, [""] otherwise. *)
Definition texto_estado (nodo : Nodo) : String.string :=
  if podado nodo then "[PODADO]"%string else ""%string.

Section Impresion.

(** [f"{x:.2f}"]: the text of a float with two decimals. *)
Variable formato_2f : ext -> String.string.

(** The line that [imprimir_arbol] prints for a node, lines 94-108.
    Formatting [None] with [:.2f] raises [TypeError]; for an internal node
    [if nodo.valor:] guards the formatting, and [None] and zero take the
    branch that prints no value. *)
Definition linea (nodo : Nodo) (nivel : nat) : resultado String.string :=
  let prefijo := sangria nivel in
  let estado := texto_estado nodo in
  if es_hoja nodo then
    match valor nodo with
    | None => TypeError
    | Some v =>
        Ok (prefijo +++ "Hoja "%string +++ texto_id (id nodo) +++ ": "%string
            +++ formato_2f v +++ " "%string +++ estado)
    end
  else
    let tipo := if es_max nodo then "MAX"%string else "MIN"%string in
    let sin_valor :=
      prefijo +++ "Nodo "%string +++ tipo +++ " "%string
      +++ texto_id (id nodo) +++ " "%string +++ estado in
    match valor nodo with
    | Some v =>
        if es_cierto v
        then Ok (prefijo +++ "Nodo "%string +++ tipo +++ " "%string
                 +++ texto_id (id nodo) +++ ": "%string +++ formato_2f v
                 +++ " "%string +++ estado)
        else Ok sin_valor
    | None => Ok sin_valor
    end.

(** The lines of a loop of calls, in order, up to the first that raises. *)
Fixpoint en_orden (rs : list (resultado (list String.string)))
  : resultado (list String.string) :=
  match rs with
  | [] => Ok []
  | TypeError :: _ => TypeError
  | Ok ls :: rs' =>
      match en_orden rs' with
      | TypeError => TypeError
      | Ok ls' => Ok (ls ++ ls')
      end
  end.

(** [imprimir_arbol(nodo, nivel)]: the lines printed, or [TypeError]. *)
Fixpoint imprimir_arbol (nodo : Nodo) (nivel : nat) {struct nodo}
  : resultado (list String.string) :=
  match linea nodo nivel with
  | TypeError => TypeError
  | Ok l =>
      match en_orden (map (fun hijo => imprimir_arbol hijo (S nivel))
                          (hijos nodo)) with
      | TypeError => TypeError
      | Ok ls => Ok (l :: ls)
      end
  end.

End Impresion.

(** The last character of a text. *)
Fixpoint ultimo (s : String.string) : option Ascii.ascii :=
  match s with
  | String.EmptyString => None
  | String.String c String.EmptyString => Some c
  | String.String _ t => ultimo t
  end.

(** The text [l] ends with the text [suf]. *)
Definition termina_en (suf l : String.string) : Prop :=
  exists u, l = u +++ suf.

(** * The notions of the specification *)

(** ** Full minimax

    The unpruned evaluation the spec compares with: the value of a leaf is
    its stored value, the value of a MAX (MIN) node is the maximum (minimum)
    of the values of all its children. *)

Definition combina (em : bool) (vs : list (option ext)) : option ext :=
  fold_left (fun acc ov =>
               match acc, ov with
               | Some a, Some v => Some (mejor em a v)
               | _, _ => None
               end) vs (Some (inicial em)).

Fixpoint minimax (n : Nodo) : option ext :=
  if es_hoja n then valor n
  else combina (es_max n) (map minimax (hijos n)).

(** ** Properties of trees *)

(** A well-formed tree: every leaf carries a value. *)
Fixpoint bien_formado (n : Nodo) : bool :=
  if es_hoja n then match valor n with Some _ => true | None => false end
  else forallb bien_formado (hijos n).

(** No node of the tree is marked. *)
Fixpoint sin_podar (n : Nodo) : bool :=
  negb (podado n) && forallb sin_podar (hijos n).

(** A tree as [crear_arbol] and [Nodo.__init__] leave it: no node is marked
    and no internal node has a value yet. *)
Fixpoint recien_creado (n : Nodo) : bool :=
  negb (podado n)
  && (if es_hoja n then true
      else match valor n with None => true | Some _ => false end)
  && forallb recien_creado (hijos n).

(** Every node of the tree is marked. *)
Fixpoint todo_podado (n : Nodo) : bool :=
  podado n && forallb todo_podado (hijos n).

(** Under every marked node of the tree all nodes are marked. *)
Fixpoint propagado (n : Nodo) : bool :=
  (if podado n then forallb todo_podado (hijos n) else true)
  && forallb propagado (hijos n).

(** [k] consecutive integers from [c] on. *)
Fixpoint consecutivos (c : Z) (k : nat) : list Z :=
  match k with
  | O => []
  | S k' => c :: consecutivos (c + 1) k'
  end.

(** A complete tree of depth [d] and branching factor [factor] whose root
    has the tag [em], as the generator leaves it: tags alternate, the leaves
    (and only they) carry a value, nothing is marked. *)
Fixpoint completo (factor d : nat) (em : bool) (n : Nodo) : Prop :=
  es_max n = em /\ podado n = false /\
  match d with
  | O => hijos n = [] /\ valor n <> None
  | S d' =>
      length (hijos n) = factor /\ valor n = None /\
      Forall (completo factor d' (negb em)) (hijos n)
  end.

(** The leaves of a tree, from left to right. *)
Definition hojas (n : Nodo) : list Nodo := filter es_hoja (nodos n).

(** The number of nodes of a complete tree of branching factor [f] and
    depth [d]: 1 + f + f^2 + ... + f^d. *)
Fixpoint tamano (f d : nat) : nat :=
  match d with
  | O => 1
  | S d' => 1 + f * tamano f d'
  end.

(** The values from the [k]-th to the [(k + l - 1)]-th draw, as leaves
    store them. *)
Definition sorteos (sorteo : nat -> Z) (k l : nat) : list (option ext) :=
  map (fun j => Some (Fin (sorteo j))) (seq k l).

(** ** The trees of the scenarios *)

Definition hoja (i : Z) (v : Z) (em : bool) : Nodo :=
  Nodo_init i (Some (Fin v)) em.

Definition interno (i : Z) (em : bool) (hs : list Nodo) : Nodo :=
  fold_left anadir_hijo hs (Nodo_init i None em).

(** Depth 2, branching factor 2, MAX root, leaves [[3,5],[2,9]]. *)
Definition arbol_3529 : Nodo :=
  interno 0 true
    [ interno 1 false [hoja 2 3 true; hoja 3 5 true];
      interno 4 false [hoja 5 2 true; hoja 6 9 true] ].

(** Its second MIN child, and its last leaf once marked. *)
Definition segundo_min : Nodo :=
  interno 4 false [hoja 5 2 true; hoja 6 9 true].

Definition hoja_9_podada : Nodo := mkNodo 6 (Some (Fin 9)) [] true true.

(** MAX root, MIN children with leaves [[9,2,7],[3,5]], and its first MIN
    child. *)
Definition arbol_92735 : Nodo :=
  interno 0 true
    [ interno 1 false [hoja 2 9 true; hoja 3 2 true; hoja 4 7 true];
      interno 5 false [hoja 6 3 true; hoja 7 5 true] ].

Definition min_927 : Nodo :=
  interno 1 false [hoja 2 9 true; hoja 3 2 true; hoja 4 7 true].

(** MAX root over a MIN node with the children leaf 1 and MAX[leaf 9], and
    a MIN node with the leaf 5. *)
Definition arbol_interno_visitado : Nodo :=
  interno 0 true
    [ interno 1 false [hoja 2 1 true; interno 3 true [hoja 4 9 false]];
      interno 5 false [hoja 6 5 true] ].

(** * Notions of the proofs *)

(** Both evaluators as one function of the traversal order ([rv = false]:
    the order of [nodo.hijos]; [rv = true]: [reversed(nodo.hijos)]).  It is
    only a means to reason about the two together: [alfa_beta_evalua] and
    [alfa_beta_reverso_evalua] below show that it is each of them. *)
Definition orden (rv : bool) {A : Type} (l : list A) : list A :=
  if rv then rev l else l.

Fixpoint evalua (rv : bool) (nodo : Nodo) (alfa beta : ext) {struct nodo}
  : resultado salida :=
  if es_hoja nodo then Ok (mkSalida (valor nodo) nodo [[]])
  else
    cierra nodo
      (bucle (es_max nodo) (orden rv (pendientes (evalua rv) (hijos nodo)))
             (inicial (es_max nodo)) alfa beta (hijos nodo) [[]]).

Definition es_reverso (o : Orden) : bool :=
  match o with Adelante => false | Reverso => true end.

(** What the result [v] of a search in the window [(alfa, beta)] tells about
    the exact value [m]. *)
Definition acota (alfa beta m v : ext) : Prop :=
  (ext_le m alfa -> ext_le v alfa) /\
  (ext_le beta m -> ext_le beta v) /\
  (ext_lt alfa m -> ext_lt m beta -> v = m).

(** A call that searches a subtree of exact value [m]. *)
Definition busca (m : ext) (c : llamada) : Prop :=
  forall alfa beta, ext_lt alfa beta ->
    exists s v, c alfa beta = Ok s /\ retorno s = Some v /\ acota alfa beta m v.

(** The state of the loop of a node searched in [(alfa0, beta0)] after some
    children, of which [M] is the best exact value so far. *)
Definition estado_bucle (em : bool) (alfa0 beta0 V M alfa beta : ext) : Prop :=
  ext_lt alfa beta /\
  if em
  then beta = beta0 /\ alfa = maximo alfa0 V /\ maximo alfa0 V = maximo alfa0 M
  else alfa = alfa0 /\ beta = minimo beta0 V /\ minimo beta0 V = minimo beta0 M.

(** Two pending calls of the same position that return the same. *)
Definition misma_llamada (p q : nat * llamada) : Prop :=
  fst p = fst q /\ forall alfa beta, snd p alfa beta = snd q alfa beta.

(** Each pending call is the call on the child at its position. *)
Definition es_llamada_de (f : Nodo -> llamada) (hs : list Nodo)
           (ic : nat * llamada) : Prop :=
  exists x, nth_error hs (fst ic) = Some x /\ snd ic = f x.

(** What evaluating and marking can do to a node: the identifier, the tag and
    the number of children stay, the value of a leaf stays, and a set flag
    [podado] stays set; the same holds of the children, position by
    position. *)
#[warnings="-register-all"]
Inductive evoluciona : Nodo -> Nodo -> Prop :=
| evoluciona_nodo (n n' : Nodo) :
    id n' = id n ->
    es_max n' = es_max n ->
    (es_hoja n = true -> valor n' = valor n) ->
    (podado n = true -> podado n' = true) ->
    Forall2 evoluciona (hijos n) (hijos n') ->
    evoluciona n n'.

(** Evaluation keeps the marks closed downwards. *)
Definition conserva_propagado (x y : Nodo) : Prop :=
  evoluciona x y /\ (propagado x = true -> propagado y = true).

(** What the left-to-right loop leaves of a child: the result [Some s] of the
    call on it when it was visited, [None] when it was skipped and marked. *)
Definition visitas_de (r : option salida) : list ruta :=
  match r with Some s => visitas s | None => [] end.

Definition hijo_final (x : Nodo) (r : option salida) : Nodo :=
  match r with Some s => arbol s | None => marca_podado x end.

Definition finales (t : list Nodo) (regs : list (option salida)) : list Nodo :=
  map (fun xr => hijo_final (fst xr) (snd xr)) (combine t regs).

(** A second call that finds the node as the first call left it, marked or
    not, returns the same and leaves the node as it finds it. *)
Definition repite_llamada (hsF : list Nodo) (p q : nat * llamada) : Prop :=
  fst p = fst q /\
  exists y, nth_error hsF (fst p) = Some y /\
    forall alfa beta s, snd p alfa beta = Ok s ->
      y = arbol s \/ y = marca_podado (arbol s) ->
      snd q alfa beta = Ok (mkSalida (retorno s) y (visitas s)).

(** A call on a node and the call on the marked node. *)
Definition llamada_marcada (p q : nat * llamada) : Prop :=
  fst p = fst q /\
  forall alfa beta s, snd p alfa beta = Ok s ->
    snd q alfa beta =
    Ok (mkSalida (retorno s) (marca_podado (arbol s)) (visitas s)).

(** What a generation step started in the state [st] returns: a tree with
    the property [P], numbered in pre-order from the counter of [st] on, and
    the counter advanced by the size of the tree. *)
Definition genera_bien (P : Nodo -> Prop) (st : estado)
           (r : Nodo * estado) : Prop :=
  P (fst r) /\
  ids (fst r) = consecutivos (contador_id st) (length (nodos (fst r))) /\
  contador_id (snd r) = (contador_id st + Z.of_nat (length (nodos (fst r))))%Z.

(** What the visits of a call that returned are: the returned value is the
    one stored in the node, no route is visited twice, the node itself is
    visited, and every visited route leads to a node, which carries a value
    when it is below the node. *)
Definition visita_bien (s : salida) : Prop :=
  retorno s = valor (arbol s) /\
  NoDup (visitas s) /\
  In [] (visitas s) /\
  forall q, In q (visitas s) ->
    exists y, subarbol (arbol s) q = Some y /\ (q <> [] -> valor y <> None).

(** The visits recorded so far by the loop of a node, with [pend] pending
    and [hs] the children as mutated so far. *)
Definition traza_bien (hs : list Nodo) (pend : list (nat * llamada))
           (tr : list ruta) : Prop :=
  NoDup tr /\
  forall p, In p tr ->
    p = [] \/
    exists i q c y,
      p = i :: q /\ ~ In i (map fst pend) /\
      nth_error hs i = Some c /\ subarbol c q = Some y /\ valor y <> None.

(** A call that fails unless its bounds are inside the window
    [(alfa0, beta0)]: [alfa0 <= alfa] and [beta <= beta0]. *)
Definition en_ventana (alfa0 beta0 : ext) (c : llamada) : llamada :=
  fun alfa beta =>
    if ext_leb alfa0 alfa && ext_leb beta beta0 then c alfa beta
    else TypeError.

Definition restringe (alfa0 beta0 : ext) (ic : nat * llamada)
  : nat * llamada :=
  (fst ic, en_ventana alfa0 beta0 (snd ic)).

(** What a generation step started in the state [st] returns, as to the
    random source: a tree of [T] nodes whose [L] leaves hold, from left to
    right, the next [L] draws, and the number of draws advanced by [L]. *)
Definition sortea_bien (sorteo : nat -> Z) (L T : nat) (st : estado)
           (r : Nodo * estado) : Prop :=
  map valor (hojas (fst r)) = sorteos sorteo (sorteados st) L /\
  sorteados (snd r) = sorteados st + L /\
  length (nodos (fst r)) = T.

(** * Proofs *)

(** ** The order on values *)

Ltac ext_prep :=
  unfold acota, ext_le, ext_lt, ext_geb, mejor, inicial, maximo, minimo,
         ext_ltb in *.

Ltac ext_hyps :=
  repeat match goal with
         | H : _ /\ _ |- _ => destruct H
         | H : ?a = ?a -> _ |- _ => specialize (H eq_refl)
         | H : true = false -> _ |- _ => clear H
         | H : false = true -> _ |- _ => clear H
         | H : true = false |- _ => discriminate H
         | H : false = true |- _ => discriminate H
         | H : Fin _ = Fin _ |- _ => injection H as H
         | H : Fin _ = MasInf |- _ => discriminate H
         | H : Fin _ = MenosInf |- _ => discriminate H
         | H : MasInf = _ |- _ => discriminate H
         | H : MenosInf = _ |- _ => discriminate H
         end.

Ltac ext_z :=
  repeat (simpl in *; ext_hyps;
          match goal with
          | H : context [(?a <=? ?b)%Z] |- _ => destruct (Z.leb_spec a b)
          | |- context [(?a <=? ?b)%Z] => destruct (Z.leb_spec a b)
          end);
  simpl in *; ext_hyps;
  try discriminate; try tauto; try lia;
  try (repeat split; intros; simpl in *; ext_hyps; try discriminate; try lia;
       try (f_equal; lia); try congruence).

Ltac ext_split :=
  match goal with
  | x : ext |- _ =>
      destruct x; simpl in *; try discriminate; ext_hyps; try ext_split
  | _ => idtac
  end.

Ltac ext_solve := intros; ext_hyps; subst; ext_prep; ext_split; ext_z.

Lemma ext_lt_irrefl (a : ext) : ~ ext_lt a a.
Proof. ext_solve. Qed.

Lemma ext_geb_false (a b : ext) : ext_geb a b = false -> ext_lt a b.
Proof. ext_solve. Qed.

Lemma acota_refl (alfa beta m : ext) : acota alfa beta m m.
Proof. ext_solve. Qed.

Lemma acota_total (m v : ext) : acota MenosInf MasInf m v -> v = m.
Proof. ext_solve. Qed.

Lemma mejor_conmuta (em : bool) (a x y : ext) :
  mejor em (mejor em a x) y = mejor em (mejor em a y) x.
Proof. destruct em; ext_solve. Qed.

Lemma fold_mejor_saca (em : bool) (ms : list ext) (a x : ext) :
  fold_left (mejor em) ms (mejor em a x) = mejor em (fold_left (mejor em) ms a) x.
Proof.
  revert a; induction ms as [|m ms IH]; intros a; simpl; [reflexivity|].
  rewrite (mejor_conmuta em a x m). apply IH.
Qed.

Lemma fold_mejor_rev (em : bool) (ms : list ext) (a : ext) :
  fold_left (mejor em) (rev ms) a = fold_left (mejor em) ms a.
Proof.
  revert a; induction ms as [|m ms IH]; intros a; simpl; [reflexivity|].
  rewrite fold_left_app; simpl. rewrite IH. symmetry. apply fold_mejor_saca.
Qed.

Lemma fold_maximo_crece (ms : list ext) (a : ext) :
  ext_le a (fold_left (mejor true) ms a).
Proof.
  revert a; induction ms as [|m ms IH]; intros a; simpl; [ext_solve|].
  specialize (IH (maximo a m)). revert IH.
  generalize (fold_left (mejor true) ms (maximo a m)). ext_solve.
Qed.

Lemma fold_minimo_decrece (ms : list ext) (a : ext) :
  ext_le (fold_left (mejor false) ms a) a.
Proof.
  revert a; induction ms as [|m ms IH]; intros a; simpl; [ext_solve|].
  specialize (IH (minimo a m)). revert IH.
  generalize (fold_left (mejor false) ms (minimo a m)). ext_solve.
Qed.

(** What a cutoff and the absence of one say, at a MAX node and at a MIN
    node. *)

Lemma corte_max (a beta m vh V : ext) :
  ext_lt a beta -> ext_le V a -> acota a beta m vh ->
  ext_geb (maximo a (maximo V vh)) beta = true ->
  ext_le beta m /\ ext_le beta (maximo V vh).
Proof. ext_solve. Qed.

Lemma acota_alto (a0 beta G W : ext) :
  ext_lt a0 beta -> ext_le beta G -> ext_le beta W -> acota a0 beta G W.
Proof. ext_solve. Qed.

Lemma sigue_max (a0 V M beta m vh : ext) :
  maximo a0 V = maximo a0 M -> ext_lt (maximo a0 V) beta ->
  acota (maximo a0 V) beta m vh ->
  ext_geb (maximo (maximo a0 V) (maximo V vh)) beta = false ->
  maximo (maximo a0 V) (maximo V vh) = maximo a0 (maximo V vh) /\
  maximo a0 (maximo V vh) = maximo a0 (maximo M m).
Proof. ext_solve. Qed.

Lemma corte_min (alfa b m vh V : ext) :
  ext_lt alfa b -> ext_le b V -> acota alfa b m vh ->
  ext_geb alfa (minimo b (minimo V vh)) = true ->
  ext_le m alfa /\ ext_le (minimo V vh) alfa.
Proof. ext_solve. Qed.

Lemma acota_bajo (alfa b0 G W : ext) :
  ext_lt alfa b0 -> ext_le G alfa -> ext_le W alfa -> acota alfa b0 G W.
Proof. ext_solve. Qed.

Lemma sigue_min (b0 V M alfa m vh : ext) :
  minimo b0 V = minimo b0 M -> ext_lt alfa (minimo b0 V) ->
  acota alfa (minimo b0 V) m vh ->
  ext_geb alfa (minimo (minimo b0 V) (minimo V vh)) = false ->
  minimo (minimo b0 V) (minimo V vh) = minimo b0 (minimo V vh) /\
  minimo b0 (minimo V vh) = minimo b0 (minimo M m).
Proof. ext_solve. Qed.

Lemma maximo_cota_l (a b : ext) : ext_le a (maximo a b).
Proof. ext_solve. Qed.

Lemma maximo_cota_r (a b : ext) : ext_le b (maximo a b).
Proof. ext_solve. Qed.

Lemma minimo_cota_l (a b : ext) : ext_le (minimo a b) a.
Proof. ext_solve. Qed.

Lemma minimo_cota_r (a b : ext) : ext_le (minimo a b) b.
Proof. ext_solve. Qed.

Lemma ext_le_trans (a b c : ext) : ext_le a b -> ext_le b c -> ext_le a c.
Proof. ext_solve. Qed.

Lemma ext_le_lt_trans (a b c : ext) : ext_le a b -> ext_lt b c -> ext_lt a c.
Proof. ext_solve. Qed.

Lemma ext_lt_le_trans (a b c : ext) : ext_lt a b -> ext_le b c -> ext_lt a c.
Proof. ext_solve. Qed.

(** ** The value computed by the loop *)

Lemma estado_bucle_fin (em : bool) (alfa0 beta0 V M alfa beta : ext) :
  estado_bucle em alfa0 beta0 V M alfa beta -> acota alfa0 beta0 M V.
Proof. unfold estado_bucle. destruct em; ext_solve. Qed.

Lemma bucle_valor (em : bool) (alfa0 beta0 : ext)
      (pend : list (nat * llamada)) (ms : list ext) :
  Forall2 (fun ic m => busca m (snd ic)) pend ms ->
  forall V M alfa beta hs tr,
    estado_bucle em alfa0 beta0 V M alfa beta ->
    exists v hs' tr',
      bucle em pend V alfa beta hs tr = Ok (v, hs', tr') /\
      acota alfa0 beta0 (fold_left (mejor em) ms M) v.
Proof.
  induction 1 as [|[i c] m pend ms Hc _ IH]; intros V M alfa beta hs tr Hst.
  - simpl. exists V, hs, tr. split; [reflexivity|].
    eapply estado_bucle_fin; eassumption.
  - simpl in Hc. destruct (Hc alfa beta) as (s & vh & Hs & Hr & Hb).
    { apply Hst. }
    simpl. rewrite Hs, Hr.
    destruct (ext_geb (if em then maximo alfa (mejor em V vh) else alfa)
                      (if em then beta else minimo beta (mejor em V vh)))
      eqn:Hcorte.
    + do 3 eexists. split; [reflexivity|].
      rewrite fold_mejor_saca.
      unfold estado_bucle in Hst. clear Hs Hr Hc IH.
      destruct em; simpl in *.
      * destruct Hst as (Hlt & -> & -> & HM).
        destruct (corte_max _ _ _ _ V Hlt (maximo_cota_r _ _) Hb Hcorte) as [H1 H2].
        apply acota_alto; trivial.
        -- eapply ext_le_lt_trans; [apply maximo_cota_l | exact Hlt].
        -- eapply ext_le_trans; [exact H1 | apply maximo_cota_r].
      * destruct Hst as (Hlt & -> & -> & HM).
        destruct (corte_min _ _ _ _ V Hlt (minimo_cota_r _ _) Hb Hcorte) as [H1 H2].
        apply acota_bajo; trivial.
        -- eapply ext_lt_le_trans; [exact Hlt | apply minimo_cota_l].
        -- eapply ext_le_trans; [apply minimo_cota_r | exact H1].
    + apply IH. unfold estado_bucle in *. clear Hs Hr Hc IH.
      destruct em; simpl in *.
      * destruct Hst as (Hlt & -> & -> & HM).
        destruct (sigue_max _ _ _ _ _ _ HM Hlt Hb Hcorte) as [H1 H2].
        split; [apply ext_geb_false; exact Hcorte|]. auto.
      * destruct Hst as (Hlt & -> & -> & HM).
        destruct (sigue_min _ _ _ _ _ _ HM Hlt Hb Hcorte) as [H1 H2].
        split; [apply ext_geb_false; exact Hcorte|]. auto.
Qed.

(** ** Induction on trees and lists of children *)

Lemma Nodo_ind_hijos (P : Nodo -> Prop) :
  (forall n, Forall P (hijos n) -> P n) -> forall n, P n.
Proof.
  intros H. fix IH 1. intros [i v hs em pd]. apply H. simpl.
  induction hs as [|h t IHt]; constructor; [apply IH | exact IHt].
Qed.

Lemma Forall2_rev {A B : Type} (R : A -> B -> Prop) (l1 : list A) (l2 : list B) :
  Forall2 R l1 l2 -> Forall2 R (rev l1) (rev l2).
Proof.
  induction 1; simpl; [constructor|].
  apply Forall2_app; [assumption | constructor; [assumption | constructor]].
Qed.

Lemma Forall2_orden {A B : Type} (R : A -> B -> Prop) (rv : bool)
      (l1 : list A) (l2 : list B) :
  Forall2 R l1 l2 -> Forall2 R (orden rv l1) (orden rv l2).
Proof. destruct rv; simpl; [apply Forall2_rev | trivial]. Qed.

Lemma Forall_orden {A : Type} (P : A -> Prop) (rv : bool) (l : list A) :
  Forall P l -> Forall P (orden rv l).
Proof. destruct rv; simpl; [apply Forall_rev | trivial]. Qed.

(** The pending calls of two lists of children, related child by child. *)
Lemma pendientes_Forall2 (f g : Nodo -> llamada)
      (R : nat * llamada -> nat * llamada -> Prop) (hs1 hs2 : list Nodo) :
  Forall2 (fun h1 h2 => forall i, R (i, f h1) (i, g h2)) hs1 hs2 ->
  forall k, Forall2 R (combine (seq k (length hs1)) (map f hs1))
                      (combine (seq k (length hs2)) (map g hs2)).
Proof.
  induction 1 as [|h1 h2 t1 t2 Hh _ IH]; intros k; simpl; constructor.
  - apply Hh.
  - apply IH.
Qed.

Lemma es_hoja_false (n : Nodo) : es_hoja n = false -> hijos n <> [].
Proof. unfold es_hoja. destruct (hijos n); congruence. Qed.

Lemma es_hoja_true (n : Nodo) : es_hoja n = true -> hijos n = [].
Proof. unfold es_hoja. destruct (hijos n); congruence. Qed.

(** ** The loop depends on the calls only through their results *)

Lemma bucle_ext (em : bool) (pend1 pend2 : list (nat * llamada)) :
  Forall2 misma_llamada pend1 pend2 ->
  forall v alfa beta hs tr,
    bucle em pend1 v alfa beta hs tr = bucle em pend2 v alfa beta hs tr.
Proof.
  induction 1 as [|[i c] [j d] p1 p2 [Hi Hc] _ IH]; intros; simpl; [reflexivity|].
  simpl in Hi, Hc. subst j. rewrite Hc.
  destruct (d alfa beta) as [s|]; [|reflexivity].
  destruct (retorno s); [|reflexivity].
  destruct (ext_geb _ _); [reflexivity | apply IH].
Qed.

Lemma Forall_Forall2_diag {A : Type} (R : A -> A -> Prop) (l : list A) :
  Forall (fun x => R x x) l -> Forall2 R l l.
Proof. induction 1; constructor; assumption. Qed.

Lemma alfa_beta_evalua (n : Nodo) :
  forall alfa beta, alfa_beta n alfa beta = evalua false n alfa beta.
Proof.
  induction n as [n IH] using Nodo_ind_hijos. intros alfa beta.
  destruct n as [i v hs em pd]; simpl in *.
  destruct (es_hoja _); [reflexivity|]. f_equal.
  apply bucle_ext. apply pendientes_Forall2. apply Forall_Forall2_diag.
  revert IH. apply Forall_impl. intros h Hh k. split; simpl; auto.
Qed.

Lemma alfa_beta_reverso_evalua (n : Nodo) :
  forall alfa beta, alfa_beta_reverso n alfa beta = evalua true n alfa beta.
Proof.
  induction n as [n IH] using Nodo_ind_hijos. intros alfa beta.
  destruct n as [i v hs em pd]; simpl in *.
  destruct (es_hoja _); [reflexivity|]. f_equal.
  apply bucle_ext. apply Forall2_rev. apply pendientes_Forall2.
  apply Forall_Forall2_diag.
  revert IH. apply Forall_impl. intros h Hh k. split; simpl; auto.
Qed.

(** ** The evaluators compute the minimax value *)

Lemma combina_Some (em : bool) (ms : list ext) :
  combina em (map Some ms) = Some (fold_left (mejor em) ms (inicial em)).
Proof.
  unfold combina. generalize (inicial em).
  induction ms as [|m ms IH]; intros a; simpl; [reflexivity | apply IH].
Qed.

Lemma estado_bucle_inicial (em : bool) (alfa beta : ext) :
  ext_lt alfa beta ->
  estado_bucle em alfa beta (inicial em) (inicial em) alfa beta.
Proof. unfold estado_bucle. destruct em; ext_solve. Qed.

Lemma hijos_buscan (f : Nodo -> llamada) (hs : list Nodo) :
  Forall (fun h => bien_formado h = true ->
                   exists m, minimax h = Some m /\ busca m (f h)) hs ->
  forallb bien_formado hs = true ->
  exists ms, map minimax hs = map Some ms /\
             forall k, Forall2 (fun ic m => busca m (snd ic))
                               (combine (seq k (length hs)) (map f hs)) ms.
Proof.
  induction 1 as [|h t Hh _ IH]; simpl; intros Hbf.
  - exists []. split; [reflexivity | constructor].
  - apply andb_true_iff in Hbf as [Hbh Hbt].
    destruct (Hh Hbh) as (m & Hm & Hb). destruct (IH Hbt) as (ms & Hms & Hf).
    exists (m :: ms). split; [simpl; congruence|].
    intros k. constructor; [exact Hb | apply Hf].
Qed.

Lemma evalua_eq (rv : bool) (n : Nodo) (alfa beta : ext) :
  evalua rv n alfa beta =
  if es_hoja n then Ok (mkSalida (valor n) n [[]])
  else cierra n
         (bucle (es_max n) (orden rv (pendientes (evalua rv) (hijos n)))
                (inicial (es_max n)) alfa beta (hijos n) [[]]).
Proof. destruct n; reflexivity. Qed.

Lemma minimax_eq (n : Nodo) :
  minimax n =
  if es_hoja n then valor n else combina (es_max n) (map minimax (hijos n)).
Proof. destruct n; reflexivity. Qed.

Lemma bien_formado_eq (n : Nodo) :
  bien_formado n =
  if es_hoja n then match valor n with Some _ => true | None => false end
  else forallb bien_formado (hijos n).
Proof. destruct n; reflexivity. Qed.

Lemma marca_podado_eq (n : Nodo) :
  marca_podado n =
  mkNodo (id n) (valor n) (map marca_podado (hijos n)) (es_max n) true.
Proof.
  destruct n as [i v hs em pd]. simpl. unfold es_hoja. simpl.
  destruct hs; reflexivity.
Qed.

Lemma evalua_valor (rv : bool) (n : Nodo) :
  bien_formado n = true ->
  exists m, minimax n = Some m /\ busca m (evalua rv n).
Proof.
  induction n as [n IH] using Nodo_ind_hijos.
  rewrite bien_formado_eq, minimax_eq. unfold busca.
  destruct (es_hoja n) eqn:Hh.
  - destruct (valor n) as [m|] eqn:Hv; [|discriminate]. intros _.
    exists m. split; [reflexivity|]. intros alfa beta _.
    rewrite evalua_eq, Hh, Hv.
    do 2 eexists. split; [reflexivity|]. split; [reflexivity | apply acota_refl].
  - intros Hbf.
    destruct (hijos_buscan (evalua rv) _ IH Hbf) as (ms & Hms & Hf).
    exists (fold_left (mejor (es_max n)) ms (inicial (es_max n))). split.
    + rewrite Hms. apply combina_Some.
    + intros alfa beta Hlt. rewrite evalua_eq, Hh.
      destruct (bucle_valor (es_max n) alfa beta
                  (orden rv (pendientes (evalua rv) (hijos n))) _
                  (Forall2_orden _ rv _ _ (Hf 0%nat))
                  (inicial (es_max n)) (inicial (es_max n)) alfa beta
                  (hijos n) [[]]
                  (estado_bucle_inicial (es_max n) _ _ Hlt))
        as (r & hs' & tr' & Hr & Hac).
      rewrite Hr. simpl. do 2 eexists. split; [reflexivity|].
      split; [reflexivity|].
      destruct rv; simpl in Hac; [rewrite fold_mejor_rev in Hac|]; exact Hac.
Qed.

Lemma ventana_total : ext_lt MenosInf MasInf.
Proof. reflexivity. Qed.

Lemma evalua_minimax (rv : bool) (n : Nodo) :
  bien_formado n = true ->
  exists s m, evalua rv n MenosInf MasInf = Ok s /\
              retorno s = Some m /\ minimax n = Some m.
Proof.
  intros Hbf. destruct (evalua_valor rv n Hbf) as (m & Hm & Hb).
  destruct (Hb _ _ ventana_total) as (s & v & Hs & Hr & Hac).
  apply acota_total in Hac. subst v. exists s, m. auto.
Qed.

(** ** What the loop does to the list of children *)

Lemma pon_length (i : nat) (x : Nodo) (l : list Nodo) :
  length (pon i x l) = length l.
Proof.
  revert i; induction l as [|h t IH]; intros [|i]; simpl; auto.
Qed.

Lemma nth_error_pon_eq (i : nat) (x : Nodo) (l : list Nodo) :
  i < length l -> nth_error (pon i x l) i = Some x.
Proof.
  revert i; induction l as [|h t IH]; intros [|i]; simpl; intros Hi;
    try lia; [reflexivity | apply IH; lia].
Qed.

Lemma nth_error_pon_neq (i j : nat) (x : Nodo) (l : list Nodo) :
  i <> j -> nth_error (pon i x l) j = nth_error l j.
Proof.
  revert i j; induction l as [|h t IH]; intros [|i] [|j]; simpl; intros Hij;
    try reflexivity; try congruence. apply IH. congruence.
Qed.

Lemma pon_mismo (i : nat) (x : Nodo) (l : list Nodo) :
  nth_error l i = Some x -> pon i x l = l.
Proof.
  revert i; induction l as [|h t IH]; intros [|i]; simpl; intros Hi;
    try reflexivity; [congruence | f_equal; apply IH; exact Hi].
Qed.

Lemma poda_desde_length (k : nat) (l : list Nodo) :
  length (poda_desde k l) = length l.
Proof.
  unfold poda_desde. rewrite length_app, length_map.
  rewrite <- (firstn_skipn k l) at 3. rewrite length_app. reflexivity.
Qed.

Lemma Forall2_pon (R : Nodo -> Nodo -> Prop) (l0 l : list Nodo)
      (i : nat) (x y : Nodo) :
  Forall2 R l0 l -> nth_error l0 i = Some x -> R x y ->
  Forall2 R l0 (pon i y l).
Proof.
  intros H; revert i; induction H as [|a b t0 t Hab Ht IH]; intros [|i];
    simpl; intros Hi Hxy; try discriminate.
  - injection Hi as ->. constructor; assumption.
  - constructor; [assumption | apply IH; assumption].
Qed.

Lemma Forall2_map_r (R : Nodo -> Nodo -> Prop) (g : Nodo -> Nodo)
      (l0 l : list Nodo) :
  (forall x y, R x y -> R x (g y)) ->
  Forall2 R l0 l -> Forall2 R l0 (map g l).
Proof. intros Hg; induction 1; simpl; constructor; auto. Qed.

Lemma Forall2_firstn {A B : Type} (R : A -> B -> Prop) (k : nat)
      (l0 : list A) (l : list B) :
  Forall2 R l0 l -> Forall2 R (firstn k l0) (firstn k l).
Proof.
  intros H; revert k; induction H; intros [|k]; simpl; constructor; auto.
Qed.

Lemma Forall2_skipn {A B : Type} (R : A -> B -> Prop) (k : nat)
      (l0 : list A) (l : list B) :
  Forall2 R l0 l -> Forall2 R (skipn k l0) (skipn k l).
Proof.
  intros H; revert k; induction H; intros [|k]; simpl;
    try constructor; auto.
Qed.

Lemma Forall2_poda_desde (R : Nodo -> Nodo -> Prop) (k : nat)
      (l0 l : list Nodo) :
  (forall x y, R x y -> R x (marca_podado y)) ->
  Forall2 R l0 l -> Forall2 R l0 (poda_desde k l).
Proof.
  intros Hm H. unfold poda_desde. rewrite <- (firstn_skipn k l0).
  apply Forall2_app; [apply Forall2_firstn; exact H|].
  apply Forall2_map_r; [exact Hm | apply Forall2_skipn; exact H].
Qed.

Lemma pendientes_desde (f : Nodo -> llamada) (pre t : list Nodo) :
  Forall (es_llamada_de f (pre ++ t))
         (combine (seq (length pre) (length t)) (map f t)).
Proof.
  revert pre; induction t as [|h t IH]; intros pre; simpl; constructor.
  - exists h. simpl. split; [|reflexivity].
    rewrite nth_error_app2, Nat.sub_diag; [reflexivity | lia].
  - specialize (IH (pre ++ [h])).
    rewrite <- app_assoc, length_app, Nat.add_1_r in IH. exact IH.
Qed.

Lemma pendientes_llamadas (f : Nodo -> llamada) (hs : list Nodo) :
  Forall (es_llamada_de f hs) (pendientes f hs).
Proof. apply (pendientes_desde f [] hs). Qed.

Lemma pendientes_indices (f : Nodo -> llamada) (hs : list Nodo) :
  map fst (pendientes f hs) = seq 0 (length hs).
Proof.
  unfold pendientes. generalize 0%nat.
  induction hs as [|h t IH]; intros k; simpl; [reflexivity|].
  f_equal. apply IH.
Qed.

Section Relacion.

Variable R : Nodo -> Nodo -> Prop.
Hypothesis R_marca : forall x y, R x y -> R x (marca_podado y).

Lemma bucle_rel (em : bool) (hs0 : list Nodo) (pend : list (nat * llamada)) :
  Forall (fun ic => exists x, nth_error hs0 (fst ic) = Some x /\
                    forall alfa beta s, snd ic alfa beta = Ok s -> R x (arbol s))
         pend ->
  forall v alfa beta hs tr v' hs' tr',
    Forall2 R hs0 hs ->
    bucle em pend v alfa beta hs tr = Ok (v', hs', tr') ->
    Forall2 R hs0 hs'.
Proof.
  induction 1 as [|[i c] pend (x & Hx & Hc) _ IH];
    intros v alfa beta hs tr v' hs' tr' HR; simpl.
  - intros [= _ <- _]. exact HR.
  - simpl in Hx, Hc. destruct (c alfa beta) as [s|] eqn:Hs; [|discriminate].
    destruct (retorno s) as [vh|]; [|discriminate].
    assert (HR' : Forall2 R hs0 (pon i (arbol s) hs)).
    { eapply Forall2_pon; eauto. }
    destruct (ext_geb _ _).
    + intros [= _ <- _]. apply Forall2_poda_desde; assumption.
    + apply IH. exact HR'.
Qed.

Hypothesis R_refl : forall x, R x x.
Hypothesis R_nodo :
  forall n v hs', es_hoja n = false -> Forall2 R (hijos n) hs' ->
    R n (mkNodo (id n) (Some v) hs' (es_max n) (podado n)).

Lemma evalua_rel (rv : bool) (n : Nodo) :
  forall alfa beta s, evalua rv n alfa beta = Ok s -> R n (arbol s).
Proof.
  induction n as [n IH] using Nodo_ind_hijos. intros alfa beta s.
  rewrite evalua_eq. destruct (es_hoja n) eqn:Hh.
  - intros [= <-]. apply R_refl.
  - destruct (bucle _ _ _ _ _ _ _) as [[[v hs'] tr']|] eqn:Hb; [|discriminate].
    simpl. intros [= <-]. simpl. apply R_nodo; [exact Hh|].
    eapply bucle_rel; [| |exact Hb].
    + apply Forall_orden.
      pose proof (pendientes_llamadas (evalua rv) (hijos n)) as Hp.
      rewrite Forall_forall in *. intros [i c] Hic.
      destruct (Hp _ Hic) as (x & Hx & Hf). simpl in *. subst c.
      exists x. split; [exact Hx|]. intros a b s' Hs'.
      eapply IH; [eapply nth_error_In; exact Hx | exact Hs'].
    + apply Forall_Forall2_diag. apply Forall_forall. intros; apply R_refl.
Qed.

End Relacion.

(** ** Evaluation keeps the shape, the leaves and the marks *)

Lemma evaluate_evalua (o : Orden) (n : Nodo) (alfa beta : ext) :
  evaluate o n alfa beta = evalua (es_reverso o) n alfa beta.
Proof.
  destruct o; simpl; [apply alfa_beta_evalua | apply alfa_beta_reverso_evalua].
Qed.

Lemma evoluciona_refl (n : Nodo) : evoluciona n n.
Proof.
  induction n as [n IH] using Nodo_ind_hijos.
  constructor; auto. apply Forall_Forall2_diag. exact IH.
Qed.

Lemma evoluciona_marca (x : Nodo) :
  forall y, evoluciona x y -> evoluciona x (marca_podado y).
Proof.
  induction x as [x IH] using Nodo_ind_hijos. intros y Hxy.
  inversion Hxy as [? ? Hid Hem Hv Hp Hh]; subst.
  rewrite marca_podado_eq. constructor; simpl; auto.
  clear - IH Hh. induction Hh as [|a b t1 t2 Hab _ IHt]; simpl; constructor.
  - apply (Forall_inv IH). exact Hab.
  - apply IHt. apply (Forall_inv_tail IH).
Qed.

Lemma evoluciona_evaluado (n : Nodo) (v : ext) (hs' : list Nodo) :
  es_hoja n = false -> Forall2 evoluciona (hijos n) hs' ->
  evoluciona n (mkNodo (id n) (Some v) hs' (es_max n) (podado n)).
Proof. intros Hh HF. constructor; simpl; auto. congruence. Qed.

Lemma evalua_evoluciona (rv : bool) (n : Nodo) (alfa beta : ext) (s : salida) :
  evalua rv n alfa beta = Ok s -> evoluciona n (arbol s).
Proof.
  apply (evalua_rel evoluciona evoluciona_marca evoluciona_refl
                    evoluciona_evaluado).
Qed.

Lemma evoluciona_es_hoja (x y : Nodo) :
  evoluciona x y -> es_hoja y = es_hoja x.
Proof.
  intros H. inversion H as [? ? Hid Hem Hv Hp Hh]; subst. unfold es_hoja.
  inversion Hh; reflexivity.
Qed.

Lemma Forall2_nth_error {A B : Type} (R : A -> B -> Prop)
      (l1 : list A) (l2 : list B) (i : nat) (x : A) :
  Forall2 R l1 l2 -> nth_error l1 i = Some x ->
  exists y, nth_error l2 i = Some y /\ R x y.
Proof.
  intros H; revert i; induction H as [|a b t1 t2 Hab _ IH]; intros [|i];
    simpl; intros Hi; try discriminate.
  - injection Hi as ->. eauto.
  - apply IH. exact Hi.
Qed.

Lemma evoluciona_subarbol (p : ruta) :
  forall x y x', evoluciona x y -> subarbol x p = Some x' ->
    exists y', subarbol y p = Some y' /\ evoluciona x' y'.
Proof.
  induction p as [|i q IH]; intros x y x' Hxy; simpl.
  - intros [= <-]. eauto.
  - destruct (nth_error (hijos x) i) as [h|] eqn:Hi; [|discriminate].
    intros Hq. inversion Hxy as [? ? Hid Hem Hv Hp Hh]; subst.
    destruct (Forall2_nth_error _ _ _ _ _ Hh Hi) as (h' & Hi' & Hhh').
    rewrite Hi'. eapply IH; eassumption.
Qed.

(** ** Marks *)

Lemma nodos_eq (n : Nodo) : nodos n = n :: flat_map nodos (hijos n).
Proof. destruct n; reflexivity. Qed.

Lemma todo_podado_eq (n : Nodo) :
  todo_podado n = podado n && forallb todo_podado (hijos n).
Proof. destruct n; reflexivity. Qed.

Lemma propagado_eq (n : Nodo) :
  propagado n =
  (if podado n then forallb todo_podado (hijos n) else true)
  && forallb propagado (hijos n).
Proof. destruct n; reflexivity. Qed.

Lemma sin_podar_eq (n : Nodo) :
  sin_podar n = negb (podado n) && forallb sin_podar (hijos n).
Proof. destruct n; reflexivity. Qed.

Lemma forallb_map_Forall {A : Type} (P : A -> bool) (g : A -> A) (l : list A) :
  Forall (fun x => P (g x) = true) l -> forallb P (map g l) = true.
Proof. induction 1; simpl; [reflexivity|]. apply andb_true_iff; auto. Qed.

Lemma todo_podado_marca (n : Nodo) : todo_podado (marca_podado n) = true.
Proof.
  induction n as [n IH] using Nodo_ind_hijos.
  rewrite marca_podado_eq, todo_podado_eq. simpl.
  apply forallb_map_Forall. exact IH.
Qed.

Lemma todo_podado_propagado (n : Nodo) :
  todo_podado n = true -> propagado n = true.
Proof.
  induction n as [n IH] using Nodo_ind_hijos.
  rewrite todo_podado_eq, propagado_eq. intros H.
  apply andb_true_iff in H as [Hp Hh]. rewrite Hp, Hh. simpl.
  rewrite forallb_forall in *. rewrite Forall_forall in IH. auto.
Qed.

Lemma propagado_marca (n : Nodo) : propagado (marca_podado n) = true.
Proof. apply todo_podado_propagado, todo_podado_marca. Qed.

Lemma sin_podar_propagado (n : Nodo) :
  sin_podar n = true -> propagado n = true.
Proof.
  induction n as [n IH] using Nodo_ind_hijos.
  rewrite sin_podar_eq, propagado_eq. intros H.
  apply andb_true_iff in H as [Hp Hh].
  apply negb_true_iff in Hp. rewrite Hp. simpl.
  rewrite forallb_forall in *. rewrite Forall_forall in IH. auto.
Qed.

Lemma todo_podado_nodos (n : Nodo) :
  todo_podado n = true <-> (forall x, In x (nodos n) -> podado x = true).
Proof.
  induction n as [n IH] using Nodo_ind_hijos.
  rewrite todo_podado_eq, andb_true_iff, forallb_forall.
  rewrite Forall_forall in IH. split.
  - intros [Hp Hh] x. rewrite nodos_eq. intros [<-|Hx]; [exact Hp|].
    apply in_flat_map in Hx as (h & Hin & Hx).
    apply (IH h Hin); auto.
  - intros H. split.
    + apply H. rewrite nodos_eq. left; reflexivity.
    + intros h Hin. apply (IH h Hin). intros x Hx. apply H.
      rewrite nodos_eq. right. apply in_flat_map. eauto.
Qed.

Lemma propagado_nodos (n : Nodo) :
  propagado n = true ->
  forall x, In x (nodos n) -> podado x = true -> todo_podado x = true.
Proof.
  induction n as [n IH] using Nodo_ind_hijos.
  rewrite propagado_eq, andb_true_iff, forallb_forall.
  rewrite Forall_forall in IH. intros [Hp Hh] x.
  rewrite nodos_eq. intros [<-|Hx] Hpx.
  - rewrite todo_podado_eq, Hpx. rewrite Hpx in Hp. exact Hp.
  - apply in_flat_map in Hx as (h & Hin & Hx). apply (IH h Hin); auto.
Qed.

Lemma evoluciona_todo_podado (x : Nodo) :
  forall y, evoluciona x y -> todo_podado x = true -> todo_podado y = true.
Proof.
  induction x as [x IH] using Nodo_ind_hijos. intros y Hxy.
  inversion Hxy as [? ? Hid Hem Hv Hp Hh]; subst.
  rewrite !todo_podado_eq, !andb_true_iff. intros [Hpx Hhx].
  split; [auto|]. clear - IH Hh Hhx.
  induction Hh as [|a b t1 t2 Hab _ IHt]; simpl in *; [reflexivity|].
  apply andb_true_iff in Hhx as [Ha Ht]. apply andb_true_iff. split.
  - apply (Forall_inv IH b); assumption.
  - apply IHt; [apply (Forall_inv_tail IH) | exact Ht].
Qed.

Lemma Forall2_forallb (P : Nodo -> bool) (R : Nodo -> Nodo -> Prop)
      (l1 l2 : list Nodo) :
  (forall x y, R x y -> P x = true -> P y = true) ->
  Forall2 R l1 l2 -> forallb P l1 = true -> forallb P l2 = true.
Proof.
  intros HR. induction 1 as [|a b t1 t2 Hab _ IH]; simpl; [trivial|].
  rewrite !andb_true_iff. intros [Ha Ht]. split; eauto.
Qed.

Lemma evalua_conserva_propagado (rv : bool) (n : Nodo) (alfa beta : ext)
      (s : salida) :
  evalua rv n alfa beta = Ok s -> conserva_propagado n (arbol s).
Proof.
  apply (evalua_rel conserva_propagado); unfold conserva_propagado.
  - intros x y [He _]. split; [apply evoluciona_marca; exact He|].
    intros _. apply propagado_marca.
  - intros x. split; [apply evoluciona_refl | trivial].
  - intros x v hs' Hh HF. split.
    + apply evoluciona_evaluado; [exact Hh|].
      revert HF. apply Forall2_impl. tauto.
    + rewrite !propagado_eq. simpl. rewrite !andb_true_iff. intros [Hp Hpr].
      split.
      * destruct (podado x); [|reflexivity].
        revert Hp. apply Forall2_forallb with (R := conserva_propagado);
          [|exact HF].
        intros a b [He _]. apply evoluciona_todo_podado. exact He.
      * revert Hpr. apply Forall2_forallb with (R := conserva_propagado);
          [|exact HF].
        intros a b [_ H]. exact H.
Qed.

(** ** The calls of [marca_podado] *)

Lemma llamadas_marca_podado_eq (n : Nodo) :
  llamadas_marca_podado n = [] :: bajo 0 (map llamadas_marca_podado (hijos n)).
Proof.
  destruct n as [i v hs em pd]. simpl. unfold bajo, es_hoja. simpl.
  rewrite length_map. destruct hs; reflexivity.
Qed.

Lemma bajo_cons (k : nat) (l : list ruta) (ls : list (list ruta)) :
  bajo k (l :: ls) = map (cons k) l ++ bajo (S k) ls.
Proof. reflexivity. Qed.

Lemma in_bajo (ls : list (list ruta)) :
  forall k p,
    In p (bajo k ls) <->
    exists i q l, p = i :: q /\ k <= i /\ nth_error ls (i - k) = Some l /\ In q l.
Proof.
  induction ls as [|l0 ls IH]; intros k p.
  - split; [intros []|]. intros (i & q & l & _ & _ & H & _).
    destruct (i - k); discriminate.
  - rewrite bajo_cons, in_app_iff, in_map_iff, IH. split.
    + intros [(q & <- & Hq) | (i & q & l & -> & Hk & Hn & Hq)].
      * exists k, q, l0. rewrite Nat.sub_diag. auto.
      * exists i, q, l. replace (i - k) with (S (i - S k)) by lia. auto with arith.
    + intros (i & q & l & -> & Hk & Hn & Hq).
      destruct (Nat.eq_dec i k) as [->|Hne].
      * rewrite Nat.sub_diag in Hn. injection Hn as ->. left. eauto.
      * right. exists i, q, l. replace (i - k) with (S (i - S k)) in Hn by lia.
        repeat split; trivial. lia.
Qed.

Lemma NoDup_map_cons (i : nat) (l : list ruta) :
  NoDup l -> NoDup (map (cons i) l).
Proof.
  induction 1 as [|q l Hq _ IH]; simpl; constructor; [|exact IH].
  rewrite in_map_iff. intros (q' & [= ->] & Hin). contradiction.
Qed.

Lemma NoDup_bajo (ls : list (list ruta)) :
  Forall (@NoDup ruta) ls -> forall k, NoDup (bajo k ls).
Proof.
  induction 1 as [|l0 ls Hl _ IH]; intros k; [constructor|].
  rewrite bajo_cons. apply NoDup_app; [apply NoDup_map_cons; exact Hl | apply IH |].
  intros p Hp Hp'. apply in_map_iff in Hp as (q & <- & _).
  apply in_bajo in Hp' as (i & q' & l & [= <- _] & Hk & _). lia.
Qed.

Lemma llamadas_marca_podado_spec (n : Nodo) :
  NoDup (llamadas_marca_podado n) /\
  forall p, In p (llamadas_marca_podado n) <-> subarbol n p <> None.
Proof.
  induction n as [n IH] using Nodo_ind_hijos.
  rewrite llamadas_marca_podado_eq. split.
  - constructor.
    + rewrite in_bajo. intros (i & q & l & [=] & _).
    + apply NoDup_bajo. apply Forall_map. revert IH. apply Forall_impl. tauto.
  - intros [|i q]; simpl.
    + split; [discriminate | auto].
    + rewrite Forall_forall in IH. split.
      * intros [[=]|H]. apply in_bajo in H as (i' & q' & l & [= <- <-] & _ & Hn & Hq).
        rewrite Nat.sub_0_r, nth_error_map in Hn.
        destruct (nth_error (hijos n) i) as [h|] eqn:Hi; [|discriminate].
        injection Hn as <-. apply (IH h); [eapply nth_error_In; exact Hi | exact Hq].
      * destruct (nth_error (hijos n) i) as [h|] eqn:Hi; [|congruence].
        intros Hq. right. apply in_bajo.
        exists i, q, (llamadas_marca_podado h). rewrite Nat.sub_0_r, nth_error_map, Hi.
        repeat split; [lia|]. apply (IH h); [eapply nth_error_In; exact Hi | exact Hq].
Qed.

(** ** The shape of the result of the left-to-right loop *)

Lemma pon_app_medio (pre : list Nodo) (x y : Nodo) (t : list Nodo) :
  pon (length pre) y (pre ++ x :: t) = pre ++ y :: t.
Proof. induction pre as [|a pre IH]; simpl; [reflexivity | f_equal; exact IH]. Qed.

Lemma poda_desde_app_medio (pre : list Nodo) (y : Nodo) (t : list Nodo) :
  poda_desde (S (length pre)) (pre ++ y :: t) = pre ++ y :: map marca_podado t.
Proof.
  unfold poda_desde.
  induction pre as [|a pre IH]; simpl; [reflexivity | f_equal; exact IH].
Qed.

Lemma bajo_vacios (n k : nat) : bajo k (repeat [] n) = [].
Proof.
  revert k; induction n as [|n IH]; intros k; [reflexivity|].
  simpl repeat. rewrite bajo_cons. simpl. apply IH.
Qed.

Lemma visitas_de_no_visitados (n : nat) :
  map visitas_de (repeat None n) = repeat [] n.
Proof. induction n as [|n IH]; simpl; [reflexivity | f_equal; exact IH]. Qed.

Lemma finales_no_visitados (t : list Nodo) :
  finales t (repeat None (length t)) = map marca_podado t.
Proof.
  unfold finales. induction t as [|x t IH]; simpl; [reflexivity | f_equal; exact IH].
Qed.

Lemma bucle_adelante_forma (f : Nodo -> llamada) (em : bool) (t : list Nodo) :
  forall pre v alfa beta tr v' hs' tr',
    bucle em (combine (seq (length pre) (length t)) (map f t))
          v alfa beta (pre ++ t) tr = Ok (v', hs', tr') ->
    exists regs,
      length regs = length t /\
      hs' = pre ++ finales t regs /\
      tr' = tr ++ bajo (length pre) (map visitas_de regs) /\
      Forall2 (fun x r => forall s, r = Some s ->
                 exists a b, f x a b = Ok s) t regs.
Proof.
  induction t as [|x t IH]; intros pre v alfa beta tr v' hs' tr'; simpl.
  - intros [= _ <- <-]. exists []. unfold finales, bajo. simpl.
    rewrite !app_nil_r. repeat split; constructor.
  - destruct (f x alfa beta) as [s|] eqn:Hs; [|discriminate].
    destruct (retorno s) as [vh|]; [|discriminate].
    rewrite pon_app_medio.
    destruct (ext_geb _ _).
    + intros [= _ <- <-]. exists (Some s :: repeat None (length t)).
      rewrite poda_desde_app_medio. simpl. rewrite repeat_length.
      split; [reflexivity|]. split.
      { unfold finales at 1. simpl. fold (finales t (repeat None (length t))).
        rewrite finales_no_visitados. reflexivity. }
      split.
      { rewrite bajo_cons. simpl visitas_de.
        rewrite visitas_de_no_visitados, bajo_vacios, app_nil_r. reflexivity. }
      constructor.
      * intros s' [= <-]. eauto.
      * clear. induction t; simpl; constructor; [discriminate | assumption].
    + intros Hb.
      replace (pre ++ arbol s :: t) with ((pre ++ [arbol s]) ++ t) in Hb
        by (rewrite <- app_assoc; reflexivity).
      replace (S (length pre)) with (length (pre ++ [arbol s])) in Hb
        by (rewrite length_app; simpl; lia).
      apply IH in Hb as (regs & Hlen & -> & -> & HF).
      exists (Some s :: regs). simpl. split; [congruence|].
      split; [rewrite <- app_assoc; reflexivity|]. split.
      { rewrite bajo_cons, <- app_assoc. simpl.
        rewrite length_app. simpl. rewrite Nat.add_1_r. reflexivity. }
      constructor; [|exact HF]. intros s' [= <-]. eauto.
Qed.

Lemma nth_error_finales (t : list Nodo) :
  forall regs i y,
    nth_error (finales t regs) i = Some y ->
    exists h r, nth_error t i = Some h /\ nth_error regs i = Some r /\
                y = hijo_final h r.
Proof.
  unfold finales.
  induction t as [|h t IH]; intros [|r regs] [|i] y; simpl; try discriminate.
  - intros [= <-]. eauto.
  - apply IH.
Qed.

Lemma in_bajo_0 (ls : list (list ruta)) (i : nat) (q : ruta) :
  In (i :: q) (bajo 0 ls) <-> exists l, nth_error ls i = Some l /\ In q l.
Proof.
  rewrite in_bajo. split.
  - intros (i' & q' & l & [= <- <-] & _ & Hn & Hq).
    rewrite Nat.sub_0_r in Hn. eauto.
  - intros (l & Hn & Hq). exists i, q, l. rewrite Nat.sub_0_r.
    repeat split; trivial. lia.
Qed.

Lemma subarbol_hoja (n : Nodo) (p : ruta) (x : Nodo) :
  es_hoja n = true -> subarbol n p = Some x -> p = [] /\ x = n.
Proof.
  intros Hh. apply es_hoja_true in Hh. destruct p as [|i q]; simpl.
  - intros [= <-]. auto.
  - rewrite Hh. destruct i; discriminate.
Qed.

Lemma subarbol_nodos (p : ruta) :
  forall n x, subarbol n p = Some x -> In x (nodos n).
Proof.
  induction p as [|i q IH]; intros n x; simpl; rewrite nodos_eq.
  - intros [= <-]. left; reflexivity.
  - destruct (nth_error (hijos n) i) as [h|] eqn:Hi; [|discriminate].
    intros Hq. right. apply in_flat_map. exists h.
    split; [eapply nth_error_In; exact Hi | apply IH; exact Hq].
Qed.

Lemma sin_podar_raiz (n : Nodo) : sin_podar n = true -> podado n = false.
Proof.
  rewrite sin_podar_eq. intros H. apply andb_true_iff in H as [H _].
  apply negb_true_iff in H. exact H.
Qed.

Lemma sin_podar_hijo (n h : Nodo) :
  sin_podar n = true -> In h (hijos n) -> sin_podar h = true.
Proof.
  rewrite sin_podar_eq. intros H. apply andb_true_iff in H as [_ H].
  rewrite forallb_forall in H. apply H.
Qed.

(** Left to right, from a tree without marks: the marked nodes are exactly
    those that no call of the evaluator reached. *)
Lemma exclusividad_evalua_adelante (n : Nodo) :
  sin_podar n = true ->
  forall alfa beta s,
    evalua false n alfa beta = Ok s ->
    forall p x, subarbol (arbol s) p = Some x ->
                (podado x = true <-> ~ In p (visitas s)).
Proof.
  induction n as [n IH] using Nodo_ind_hijos. intros Hsp alfa beta s.
  rewrite evalua_eq. destruct (es_hoja n) eqn:Hh.
  - intros [= <-] p x Hp. simpl in *.
    destruct (subarbol_hoja _ _ _ Hh Hp) as [-> ->].
    rewrite (sin_podar_raiz _ Hsp). simpl. split; [discriminate | tauto].
  - destruct (bucle _ _ _ _ _ _ _) as [[[v hs'] tr']|] eqn:Hb; [|discriminate].
    simpl. intros [= <-]. simpl.
    apply (bucle_adelante_forma (evalua false) (es_max n) (hijos n) [])
      in Hb as (regs & Hlen & -> & -> & HF).
    simpl. intros [|i q] x; simpl.
    + intros [= <-]. simpl. rewrite (sin_podar_raiz _ Hsp).
      split; [discriminate | tauto].
    + destruct (nth_error (finales (hijos n) regs) i) as [y|] eqn:Hi;
        [|discriminate].
      intros Hq.
      apply nth_error_finales in Hi as (h & r & Hih & Hir & ->).
      destruct (Forall2_nth_error _ _ _ _ _ HF Hih) as (r' & Hir' & Hr).
      rewrite Hir in Hir'. injection Hir' as <-.
      assert (Hin : In (i :: q) (bajo 0 (map visitas_de regs))
                    <-> In q (visitas_de r)).
      { rewrite in_bajo_0, nth_error_map, Hir. simpl. split.
        - intros (l & [= <-] & H). exact H.
        - eauto. }
      assert (Hne : forall P : Prop, ([] = i :: q \/ P) <-> P).
      { intros P. split; [intros [[=]|H]; exact H | auto]. }
      rewrite Hne, Hin.
      destruct r as [s'|]; simpl in *.
      * destruct (Hr s' eq_refl) as (a & b & Hs').
        rewrite Forall_forall in IH.
        apply (IH h (nth_error_In _ _ Hih)
                  (sin_podar_hijo _ _ Hsp (nth_error_In _ _ Hih)) a b s' Hs' q x Hq).
      * split; [tauto|]. intros _.
        apply (proj1 (todo_podado_nodos (marca_podado h))
                     (todo_podado_marca h)).
        eapply subarbol_nodos. exact Hq.
Qed.

(** ** What [marca_podado] changes *)

Lemma subarbol_marca_podado (p : ruta) :
  forall n, subarbol (marca_podado n) p = option_map marca_podado (subarbol n p).
Proof.
  induction p as [|i q IH]; intros n; simpl; [reflexivity|].
  rewrite marca_podado_eq. simpl. rewrite nth_error_map.
  destruct (nth_error (hijos n) i) as [h|]; simpl; [apply IH | reflexivity].
Qed.

Lemma nodos_marca_podado (n : Nodo) :
  nodos (marca_podado n) = map marca_podado (nodos n).
Proof.
  induction n as [n IH] using Nodo_ind_hijos.
  rewrite (nodos_eq n), nodos_eq. simpl map. f_equal.
  rewrite marca_podado_eq. simpl hijos.
  induction IH as [|h t Hh _ IHt]; simpl; [reflexivity|].
  rewrite map_app, Hh, IHt. reflexivity.
Qed.

Lemma es_hoja_marca_podado (n : Nodo) : es_hoja (marca_podado n) = es_hoja n.
Proof.
  rewrite marca_podado_eq. unfold es_hoja. simpl. destruct (hijos n); reflexivity.
Qed.

Lemma marca_podado_idem (n : Nodo) :
  marca_podado (marca_podado n) = marca_podado n.
Proof.
  induction n as [n IH] using Nodo_ind_hijos.
  rewrite (marca_podado_eq n), marca_podado_eq. simpl. f_equal.
  rewrite map_map. apply map_ext_Forall. exact IH.
Qed.

Lemma recien_creado_eq (n : Nodo) :
  recien_creado n =
  negb (podado n)
  && (if es_hoja n then true
      else match valor n with None => true | Some _ => false end)
  && forallb recien_creado (hijos n).
Proof. destruct n; reflexivity. Qed.

Lemma recien_creado_nodos (n : Nodo) :
  recien_creado n = true ->
  forall x, In x (nodos n) ->
    podado x = false /\ (es_hoja x = false -> valor x = None).
Proof.
  induction n as [n IH] using Nodo_ind_hijos.
  rewrite recien_creado_eq, !andb_true_iff, forallb_forall.
  rewrite Forall_forall in IH. intros [[Hp Hv] Hh] x.
  rewrite nodos_eq. intros [<-|Hx].
  - split; [apply negb_true_iff; exact Hp|]. intros Hx. rewrite Hx in Hv.
    destruct (valor n); [discriminate | reflexivity].
  - apply in_flat_map in Hx as (h & Hin & Hx). apply (IH h Hin); auto.
Qed.

Lemma recien_creado_hijo (n h : Nodo) :
  recien_creado n = true -> In h (hijos n) -> recien_creado h = true.
Proof.
  rewrite recien_creado_eq, !andb_true_iff, forallb_forall.
  intros [_ H]. apply H.
Qed.

Lemma in_finales (f : Nodo -> llamada) (t : list Nodo)
      (regs : list (option salida)) (y : Nodo) :
  Forall2 (fun x r => forall s, r = Some s -> exists a b, f x a b = Ok s)
          t regs ->
  In y (finales t regs) ->
  exists h, In h t /\
            (y = marca_podado h \/ exists a b s, f h a b = Ok s /\ y = arbol s).
Proof.
  unfold finales. induction 1 as [|h r t regs Hr _ IH]; simpl; [intros []|].
  intros [<-|Hy].
  - exists h. split; [left; reflexivity|].
    destruct r as [s|]; simpl; [|left; reflexivity].
    destruct (Hr s eq_refl) as (a & b & Hs). right. eauto.
  - destruct (IH Hy) as (h' & Hin & H'). exists h'. auto.
Qed.

(** Left to right, from a fresh tree: a marked internal node was never
    evaluated, so it has no value. *)
Lemma podados_sin_valor_evalua_adelante (n : Nodo) :
  recien_creado n = true ->
  forall alfa beta s,
    evalua false n alfa beta = Ok s ->
    forall x, In x (nodos (arbol s)) ->
              es_hoja x = false -> podado x = true -> valor x = None.
Proof.
  induction n as [n IH] using Nodo_ind_hijos. intros Hrc alfa beta s.
  rewrite evalua_eq. destruct (es_hoja n) eqn:Hh.
  - intros [= <-] x Hx Hhx Hpx. simpl in Hx.
    apply (recien_creado_nodos _ Hrc) in Hx as [Hp _]. congruence.
  - destruct (bucle _ _ _ _ _ _ _) as [[[v hs'] tr']|] eqn:Hb; [|discriminate].
    simpl. intros [= <-]. cbn [arbol].
    apply (bucle_adelante_forma (evalua false) (es_max n) (hijos n) [])
      in Hb as (regs & Hlen & -> & -> & HF).
    intros x. rewrite nodos_eq. cbn [hijos app]. intros [<-|Hx] Hhx Hpx.
    + simpl in Hpx.
      destruct (recien_creado_nodos _ Hrc n) as [Hp _];
        [rewrite nodos_eq; left; reflexivity | congruence].
    + apply in_flat_map in Hx as (y & Hy & Hx).
      destruct (in_finales _ _ _ _ HF Hy) as (h & Hin & [-> | (a & b & s' & Hs' & ->)]).
      * rewrite nodos_marca_podado in Hx.
        apply in_map_iff in Hx as (x0 & <- & Hx0).
        rewrite es_hoja_marca_podado in Hhx. rewrite marca_podado_eq. simpl.
        apply (recien_creado_nodos _ (recien_creado_hijo _ _ Hrc Hin) _ Hx0).
        exact Hhx.
      * rewrite Forall_forall in IH.
        apply (IH h Hin (recien_creado_hijo _ _ Hrc Hin) a b s' Hs' x Hx Hhx Hpx).
Qed.

(** ** Evaluating twice *)

Lemma bucle_length (em : bool) (pend : list (nat * llamada)) :
  forall v alfa beta hs tr v' hs' tr',
    bucle em pend v alfa beta hs tr = Ok (v', hs', tr') ->
    length hs' = length hs.
Proof.
  induction pend as [|[i c] pend IH]; intros v alfa beta hs tr v' hs' tr'; simpl.
  - intros [= _ <- _]. reflexivity.
  - destruct (c alfa beta) as [s|]; [|discriminate].
    destruct (retorno s) as [vh|]; [|discriminate].
    destruct (ext_geb _ _).
    + intros [= _ <- _]. rewrite poda_desde_length. apply pon_length.
    + intros Hb. apply IH in Hb. rewrite Hb. apply pon_length.
Qed.

Lemma nth_error_poda_desde (k : nat) (l : list Nodo) (j : nat) :
  nth_error (poda_desde k l) j =
  if j <? k then nth_error l j else option_map marca_podado (nth_error l j).
Proof.
  unfold poda_desde. revert k j; induction l as [|h t IH]; intros k j.
  - rewrite firstn_nil, skipn_nil. simpl.
    destruct j; destruct (_ <? _); reflexivity.
  - destruct k as [|k], j as [|j]; simpl; try reflexivity.
    + apply nth_error_map.
    + rewrite IH. reflexivity.
Qed.

Lemma poda_desde_idem (k : nat) (l : list Nodo) :
  poda_desde k (poda_desde k l) = poda_desde k l.
Proof.
  unfold poda_desde. revert k; induction l as [|h t IH]; intros [|k]; simpl;
    try reflexivity.
  - rewrite marca_podado_idem. f_equal. rewrite map_map.
    apply map_ext. intros; apply marca_podado_idem.
  - f_equal. apply IH.
Qed.

Lemma pon_map (g : Nodo -> Nodo) (i : nat) (y : Nodo) (l : list Nodo) :
  pon i (g y) (map g l) = map g (pon i y l).
Proof.
  revert i; induction l as [|h t IH]; intros [|i]; simpl; try reflexivity.
  f_equal. apply IH.
Qed.

Lemma poda_desde_map (k : nat) (l : list Nodo) :
  poda_desde k (map marca_podado l) = map marca_podado (poda_desde k l).
Proof.
  unfold poda_desde. revert k; induction l as [|h t IH]; intros [|k];
    try reflexivity.
  simpl. f_equal. apply IH.
Qed.

Lemma bucle_otros (em : bool) (pend : list (nat * llamada)) :
  forall v alfa beta hs tr v' hs' tr' j,
    bucle em pend v alfa beta hs tr = Ok (v', hs', tr') ->
    ~ In j (map fst pend) ->
    nth_error hs' j = nth_error hs j \/
    nth_error hs' j = option_map marca_podado (nth_error hs j).
Proof.
  induction pend as [|[i c] pend IH]; intros v alfa beta hs tr v' hs' tr' j; simpl.
  - intros [= _ <- _]. auto.
  - destruct (c alfa beta) as [s|]; [|discriminate].
    destruct (retorno s) as [vh|]; [|discriminate].
    intros Hb Hj.
    assert (Hij : i <> j) by tauto.
    destruct (ext_geb _ _).
    + injection Hb as _ <- _. rewrite nth_error_poda_desde.
      rewrite (nth_error_pon_neq _ _ _ _ Hij). destruct (j <? S i); auto.
    + eapply IH in Hb; [|intros H; apply Hj; right; exact H].
      rewrite (nth_error_pon_neq _ _ _ _ Hij) in Hb. exact Hb.
Qed.

Lemma bucle_marcado (em : bool) (pend1 pend2 : list (nat * llamada)) :
  Forall2 llamada_marcada pend1 pend2 ->
  forall v alfa beta hs tr v' hs' tr',
    bucle em pend1 v alfa beta hs tr = Ok (v', hs', tr') ->
    bucle em pend2 v alfa beta (map marca_podado hs) tr
    = Ok (v', map marca_podado hs', tr').
Proof.
  induction 1 as [|[i c] [j d] p1 p2 [Hi Hc] _ IH];
    intros v alfa beta hs tr v' hs' tr'; simpl.
  - intros [= <- <- <-]. reflexivity.
  - simpl in Hi, Hc. subst j.
    destruct (c alfa beta) as [s|] eqn:Hs; [|discriminate].
    rewrite (Hc _ _ _ Hs). simpl.
    destruct (retorno s) as [vh|]; [|discriminate].
    rewrite pon_map.
    destruct (ext_geb _ _).
    + intros [= <- <- <-]. rewrite poda_desde_map. reflexivity.
    + apply IH.
Qed.

Lemma pendientes_Forall2_idx (f g : Nodo -> llamada)
      (R : nat * llamada -> nat * llamada -> Prop) (t1 : list Nodo) :
  forall t2 k,
    length t1 = length t2 ->
    (forall j h1 h2, nth_error t1 j = Some h1 -> nth_error t2 j = Some h2 ->
                     R (k + j, f h1) (k + j, g h2)) ->
    Forall2 R (combine (seq k (length t1)) (map f t1))
              (combine (seq k (length t2)) (map g t2)).
Proof.
  induction t1 as [|h1 t1 IH]; intros [|h2 t2] k; simpl; try discriminate;
    intros Hlen HR; constructor.
  - specialize (HR 0 h1 h2 eq_refl eq_refl). rewrite Nat.add_0_r in HR. exact HR.
  - apply IH; [congruence|]. intros j a b Ha Hb.
    specialize (HR (S j) a b Ha Hb). rewrite Nat.add_succ_r in HR. exact HR.
Qed.

Lemma evalua_marcado (rv : bool) (n : Nodo) :
  forall alfa beta s,
    evalua rv n alfa beta = Ok s ->
    evalua rv (marca_podado n) alfa beta
    = Ok (mkSalida (retorno s) (marca_podado (arbol s)) (visitas s)).
Proof.
  induction n as [n IH] using Nodo_ind_hijos. intros alfa beta s.
  rewrite !evalua_eq, es_hoja_marca_podado. destruct (es_hoja n) eqn:Hh.
  - intros [= <-]. simpl. rewrite (marca_podado_eq n). reflexivity.
  - destruct (bucle _ _ _ _ _ _ _) as [[[v hs'] tr']|] eqn:Hb; [|discriminate].
    simpl. intros [= <-]. simpl.
    rewrite (marca_podado_eq n). cbn [hijos es_max id valor podado].
    erewrite bucle_marcado; [| |exact Hb].
    + unfold es_hoja. simpl. destruct hs'; reflexivity.
    + apply Forall2_orden. unfold pendientes.
      apply pendientes_Forall2_idx; [rewrite length_map; reflexivity|].
      intros j h1 h2 H1 H2. rewrite nth_error_map, H1 in H2.
      injection H2 as <-. split; [reflexivity|]. simpl.
      rewrite Forall_forall in IH. apply IH. eapply nth_error_In; exact H1.
Qed.

Lemma bucle_repetido (em : bool) (hsF : list Nodo)
      (pend1 pend2 : list (nat * llamada)) :
  Forall2 (repite_llamada hsF) pend1 pend2 ->
  NoDup (map fst pend1) ->
  forall v alfa beta hsA tr v' tr',
    bucle em pend1 v alfa beta hsA tr = Ok (v', hsF, tr') ->
    bucle em pend2 v alfa beta hsF tr = Ok (v', hsF, tr').
Proof.
  induction 1 as [|[i c] [j d] p1 p2 (Hi & y & Hy & Hc) _ IH];
    intros Hnd v alfa beta hsA tr v' tr'; simpl.
  - intros [= <- _ <-]. reflexivity.
  - simpl in Hi, Hy, Hc. subst j. simpl in Hnd.
    apply NoDup_cons_iff in Hnd as [Hni Hnd].
    destruct (c alfa beta) as [s|] eqn:Hs; [|discriminate].
    destruct (retorno s) as [vh|] eqn:Hr; [|discriminate].
    intros Hb.
    assert (HiF : i < length hsF).
    { apply nth_error_Some. congruence. }
    assert (HiA : i < length hsA).
    { destruct (ext_geb _ _).
      - injection Hb as _ Hb _. rewrite <- Hb, poda_desde_length, pon_length in HiF.
        exact HiF.
      - apply bucle_length in Hb. rewrite Hb, pon_length in HiF. exact HiF. }
    assert (Hy' : y = arbol s \/ y = marca_podado (arbol s)).
    { destruct (ext_geb _ _).
      - injection Hb as _ Hb _. rewrite <- Hb, nth_error_poda_desde in Hy.
        replace (i <? S i) with true in Hy by (symmetry; apply Nat.ltb_lt; lia).
        rewrite (nth_error_pon_eq _ _ _ HiA) in Hy. left. congruence.
      - eapply bucle_otros in Hb; [|exact Hni].
        rewrite (nth_error_pon_eq _ _ _ HiA), Hy in Hb. simpl in Hb.
        destruct Hb as [Hb|Hb]; [left | right]; congruence. }
    rewrite (Hc _ _ _ Hs Hy'). simpl. rewrite Hr.
    rewrite (pon_mismo _ _ _ Hy).
    destruct (ext_geb _ _).
    + injection Hb as <- Hb <-. rewrite <- Hb at 1.
      rewrite poda_desde_idem, Hb. reflexivity.
    + eapply IH; [exact Hnd | exact Hb].
Qed.

Lemma salida_eta (s : salida) :
  mkSalida (retorno s) (arbol s) (visitas s) = s.
Proof. destruct s; reflexivity. Qed.

Lemma orden_indices (rv : bool) (f : Nodo -> llamada) (hs : list Nodo) :
  NoDup (map fst (orden rv (pendientes f hs))).
Proof.
  destruct rv; simpl.
  - rewrite map_rev. apply NoDup_rev. rewrite pendientes_indices. apply seq_NoDup.
  - rewrite pendientes_indices. apply seq_NoDup.
Qed.

Lemma evalua_idem (rv : bool) (n : Nodo) :
  forall alfa beta s,
    evalua rv n alfa beta = Ok s -> evalua rv (arbol s) alfa beta = Ok s.
Proof.
  induction n as [n IH] using Nodo_ind_hijos. intros alfa beta s Hs.
  pose proof (evoluciona_es_hoja _ _ (evalua_evoluciona _ _ _ _ _ Hs)) as Hh'.
  revert Hs Hh'. rewrite (evalua_eq rv n). destruct (es_hoja n) eqn:Hh.
  - intros [= <-] _. simpl. rewrite evalua_eq, Hh. reflexivity.
  - destruct (bucle _ _ _ _ _ _ _) as [[[v hs'] tr']|] eqn:Hb; [|discriminate].
    cbn [cierra]. intros [= <-]. cbn [arbol]. intros Hh'.
    rewrite evalua_eq, Hh'. cbn [hijos es_max id valor podado].
    erewrite bucle_repetido; [reflexivity | | apply orden_indices | exact Hb].
    apply Forall2_orden. unfold pendientes.
    apply pendientes_Forall2_idx.
    { symmetry. eapply bucle_length. exact Hb. }
    intros j h y Hj Hy. simpl. split; [reflexivity|]. exists y. simpl.
    split; [exact Hy|]. intros a b s Hs [-> | ->].
    + rewrite salida_eta. rewrite Forall_forall in IH.
      apply (IH h (nth_error_In _ _ Hj)). exact Hs.
    + apply evalua_marcado. rewrite Forall_forall in IH.
      apply (IH h (nth_error_In _ _ Hj)). exact Hs.
Qed.

(** ** The generator *)

Lemma consecutivos_app (a b : nat) :
  forall c, consecutivos c (a + b)
            = consecutivos c a ++ consecutivos (c + Z.of_nat a) b.
Proof.
  induction a as [|a IH]; intros c.
  - simpl. rewrite Z.add_0_r. reflexivity.
  - cbn [Nat.add consecutivos app]. rewrite IH. do 3 f_equal. lia.
Qed.

Lemma in_consecutivos (k : nat) :
  forall c x, In x (consecutivos c k) -> (c <= x)%Z.
Proof.
  induction k as [|k IH]; intros c x; simpl; [intros []|].
  intros [<-|H]; [lia|]. apply IH in H. lia.
Qed.

Lemma consecutivos_creciente (k : nat) :
  forall c, StronglySorted Z.lt (consecutivos c k).
Proof.
  induction k as [|k IH]; intros c; simpl; constructor; [apply IH|].
  apply Forall_forall. intros x Hx. apply in_consecutivos in Hx. lia.
Qed.

Lemma creciente_NoDup (l : list Z) : StronglySorted Z.lt l -> NoDup l.
Proof.
  induction 1 as [|x l _ IH Hx]; constructor; [|exact IH].
  intros Hin. rewrite Forall_forall in Hx. apply Hx in Hin. lia.
Qed.

Section Repite.

Variables (P : Nodo -> Prop) (genera_hijo : estado -> option (Nodo * estado)).
Hypothesis genera_hijo_bien :
  forall st, exists r, genera_hijo st = Some r /\ genera_bien P st r.

Lemma repite_spec (k : nat) :
  forall nodo st,
    exists hs st',
      repite k genera_hijo nodo st
      = Some (mkNodo (id nodo) (valor nodo) (hijos nodo ++ hs) (es_max nodo)
                     (podado nodo), st') /\
      length hs = k /\ Forall P hs /\
      map id (flat_map nodos hs)
      = consecutivos (contador_id st) (length (flat_map nodos hs)) /\
      contador_id st'
      = (contador_id st + Z.of_nat (length (flat_map nodos hs)))%Z.
Proof.
  induction k as [|k IH]; intros nodo st.
  - exists [], st. simpl. rewrite app_nil_r, Z.add_0_r.
    destruct nodo; repeat split; constructor.
  - simpl. destruct (genera_hijo_bien st) as ([h st1] & -> & HP & Hids & Hc).
    simpl in HP, Hids, Hc.
    destruct (IH (anadir_hijo nodo h) st1) as (hs & st' & Hr & Hlen & HF & Hi & Hc').
    exists (h :: hs), st'. rewrite Hr. simpl. rewrite <- app_assoc. simpl.
    split; [reflexivity|]. split; [congruence|]. split; [constructor; assumption|].
    rewrite map_app, length_app, consecutivos_app. unfold ids in Hids.
    rewrite Hids, Hi, Hc, Hc'. split; [reflexivity | lia].
Qed.

End Repite.

(** With [d] levels left below [prof_actual] and more fuel than that, the
    generation returns a complete tree of depth [d]. *)
Lemma generar_subarbol_bien (factor profundidad : Z) (sorteo : nat -> Z)
      (d : nat) :
  forall combustible prof_actual em st,
    (prof_actual + Z.of_nat d = profundidad)%Z ->
    d < combustible ->
    exists r,
      _generar_subarbol factor profundidad sorteo combustible prof_actual em st
      = Some r /\
      genera_bien (completo (Z.to_nat factor) d em) st r.
Proof.
  induction d as [|d IH]; intros [|c] prof em st Hprof Hc; try lia.
  - cbn [_generar_subarbol].
    replace (profundidad <=? prof)%Z with true
      by (symmetry; apply Z.leb_le; lia).
    eexists. split; [reflexivity|].
    unfold genera_bien, ids. simpl. repeat split; discriminate.
  - cbn [_generar_subarbol].
    replace (profundidad <=? prof)%Z with false
      by (symmetry; apply Z.leb_gt; lia).
    destruct (repite_spec (completo (Z.to_nat factor) d (negb em))
                (_generar_subarbol factor profundidad sorteo c (prof + 1)
                                   (negb em))
                (fun st0 => IH c (prof + 1)%Z (negb em) st0
                               ltac:(lia) ltac:(lia))
                (Z.to_nat factor)
                (Nodo_init (contador_id st) None em)
                (mkEstado (contador_id st + 1) (sorteados st)))
      as (hs & st' & Hr & Hlen & HF & Hi & Hc').
    rewrite Hr. eexists. split; [reflexivity|].
    unfold genera_bien, ids. cbn [fst snd]. rewrite nodos_eq.
    cbn [hijos Nodo_init app map length id es_max podado valor consecutivos contador_id] in *.
    repeat split; trivial.
    + rewrite Hi. reflexivity.
    + rewrite Hc'. lia.
Qed.

Lemma completo_es_max (factor d : nat) (em : bool) (n : Nodo) :
  completo factor d em n -> es_max n = em.
Proof. destruct d; simpl; tauto. Qed.

Lemma completo_hojas (factor : nat) (d : nat) :
  1 <= factor ->
  forall em n p x,
    completo factor d em n -> subarbol n p = Some x -> es_hoja x = true ->
    length p = d.
Proof.
  intros Hf. induction d as [|d IH]; intros em n p x; simpl.
  - intros (_ & _ & Hh & _) Hp _.
    assert (H : es_hoja n = true) by (unfold es_hoja; rewrite Hh; reflexivity).
    destruct (subarbol_hoja _ _ _ H Hp) as [-> _]. reflexivity.
  - intros (_ & _ & Hlen & _ & HF). destruct p as [|i q]; simpl.
    + intros [= <-] Hx. apply es_hoja_true in Hx. rewrite Hx in Hlen.
      simpl in Hlen. lia.
    + destruct (nth_error (hijos n) i) as [h|] eqn:Hi; [|discriminate].
      intros Hq Hx. f_equal. rewrite Forall_forall in HF.
      apply (IH (negb em) h q x); trivial.
      apply HF. eapply nth_error_In; exact Hi.
Qed.

Lemma completo_nodos (factor : nat) (d : nat) :
  1 <= factor ->
  forall em n x,
    completo factor d em n -> In x (nodos n) ->
    (es_hoja x = false -> length (hijos x) = factor) /\
    (forall h, In h (hijos x) -> es_max h = negb (es_max x)) /\
    (es_hoja x = true -> valor x <> None).
Proof.
  intros Hf. induction d as [|d IH]; intros em n x; simpl; rewrite nodos_eq.
  - intros (_ & _ & Hh & Hv). rewrite Hh. simpl. intros [<-|[]].
    unfold es_hoja. rewrite Hh. repeat split; [discriminate | intros h [] | auto].
  - intros (Hem & _ & Hlen & _ & HF). rewrite Forall_forall in HF.
    intros [<-|Hx].
    + repeat split; trivial.
      * intros h Hh. rewrite (completo_es_max _ _ _ _ (HF h Hh)). congruence.
      * intros Hx. apply es_hoja_true in Hx. rewrite Hx in Hlen.
        simpl in Hlen. lia.
    + apply in_flat_map in Hx as (h & Hh & Hx).
      apply (IH (negb em) h x (HF h Hh) Hx).
Qed.

(** ** The evaluators return on well-formed trees, in any window *)

Lemma bucle_total (em : bool) (pend : list (nat * llamada)) :
  Forall (fun ic => forall alfa beta,
            exists s v, snd ic alfa beta = Ok s /\ retorno s = Some v) pend ->
  forall v alfa beta hs tr, exists r, bucle em pend v alfa beta hs tr = Ok r.
Proof.
  induction 1 as [|[i c] pend Hc _ IH]; intros v alfa beta hs tr; simpl.
  - eauto.
  - simpl in Hc. destruct (Hc alfa beta) as (s & vh & -> & ->).
    destruct (ext_geb _ _); [eauto | apply IH].
Qed.

Lemma evalua_total (rv : bool) (n : Nodo) :
  bien_formado n = true ->
  forall alfa beta,
    exists s v, evalua rv n alfa beta = Ok s /\ retorno s = Some v.
Proof.
  induction n as [n IH] using Nodo_ind_hijos.
  rewrite bien_formado_eq. intros Hbf alfa beta. rewrite evalua_eq.
  destruct (es_hoja n) eqn:Hh.
  - destruct (valor n) as [m|] eqn:Hv; [|discriminate].
    do 2 eexists. split; reflexivity.
  - assert (Hp : Forall (fun ic => forall alfa beta,
                        exists s v, snd ic alfa beta = Ok s /\
                                    retorno s = Some v)
                      (orden rv (pendientes (evalua rv) (hijos n)))).
    { apply Forall_orden.
      pose proof (pendientes_llamadas (evalua rv) (hijos n)) as Hp.
      rewrite Forall_forall in *. intros [i c] Hic.
      destruct (Hp _ Hic) as (x & Hx & Hf). simpl in *. subst c.
      apply nth_error_In in Hx. apply (IH x Hx).
      rewrite forallb_forall in Hbf. apply Hbf. exact Hx. }
    destruct (bucle_total (es_max n) _ Hp (inicial (es_max n)) alfa beta
                          (hijos n) [[]])
      as ([[v hs'] tr'] & ->).
    simpl. do 2 eexists. split; reflexivity.
Qed.

Lemma evaluate_total (o : Orden) (n : Nodo) (alfa beta : ext) :
  bien_formado n = true -> exists s, evaluate o n alfa beta = Ok s.
Proof.
  intros Hbf. rewrite evaluate_evalua.
  destruct (evalua_total (es_reverso o) n Hbf alfa beta) as (s & _ & Hs & _).
  eauto.
Qed.

(** * Properties of the program *)

(** ** Scenario [[3,5],[2,9]] *)

(** C7.  On the MAX root with MIN children over the leaves [[3,5],[2,9]],
    [alfa_beta] from (-inf, +inf) returns 3; the first MIN child gets the
    value 3; the second MIN child, searched with alfa = 3, returns 2 after
    visiting only its first leaf (3 >= 2 cuts) and marks its second leaf;
    the leaf 9 is the only node of the tree that ends marked, and the only
    one that is not visited. *)
Theorem escenario_3529 :
  exists s,
    alfa_beta arbol_3529 MenosInf MasInf = Ok s /\
    retorno s = Some (Fin 3) /\
    valor (arbol s) = Some (Fin 3) /\
    option_map valor (subarbol (arbol s) [0]) = Some (Some (Fin 3)) /\
    option_map valor (subarbol (arbol s) [1]) = Some (Some (Fin 2)) /\
    (exists s2,
        alfa_beta segundo_min (Fin 3) MasInf = Ok s2 /\
        retorno s2 = Some (Fin 2) /\
        visitas s2 = [[]; [0]] /\
        map podado (hijos (arbol s2)) = [false; true]) /\
    ext_geb (Fin 3) (minimo MasInf (minimo MasInf (Fin 2))) = true /\
    visitas s = [[]; [0]; [0; 0]; [0; 1]; [1]; [1; 0]] /\
    filter podado (nodos (arbol s)) = [hoja_9_podada] /\
    subarbol (arbol s) [1; 1] = Some hoja_9_podada.
Proof.
  eexists. split; [vm_compute; reflexivity|]. cbn [retorno arbol visitas].
  repeat split; try reflexivity.
  eexists. split; [vm_compute; reflexivity|]. repeat split; reflexivity.
Qed.

(** ** Minimax *)

(** C2.  On a well-formed tree [alfa_beta] from (-inf, +inf) returns, and
    what it returns is the value of the full minimax traversal. *)
Theorem alfa_beta_es_minimax (n : Nodo) :
  bien_formado n = true ->
  exists s m,
    alfa_beta n MenosInf MasInf = Ok s /\
    retorno s = Some m /\ minimax n = Some m.
Proof.
  intros Hbf. destruct (evalua_minimax false n Hbf) as (s & m & Hs & Hr & Hm).
  exists s, m. rewrite alfa_beta_evalua. auto.
Qed.

Lemma alfa_beta_es_minimax_witness :
  bien_formado arbol_3529 = true /\
  exists s m,
    alfa_beta arbol_3529 MenosInf MasInf = Ok s /\
    retorno s = Some m /\ minimax arbol_3529 = Some m.
Proof.
  split; [reflexivity | apply (alfa_beta_es_minimax arbol_3529); reflexivity].
Defined.

(** C3.  On a well-formed tree the left-to-right and the right-to-left
    evaluation from (-inf, +inf) both return, and return the same value. *)
Theorem ordenes_mismo_valor (n : Nodo) :
  bien_formado n = true ->
  exists s1 s2,
    alfa_beta n MenosInf MasInf = Ok s1 /\
    alfa_beta_reverso n MenosInf MasInf = Ok s2 /\
    retorno s1 = retorno s2.
Proof.
  intros Hbf.
  destruct (evalua_minimax false n Hbf) as (s1 & m1 & Hs1 & Hr1 & Hm1).
  destruct (evalua_minimax true n Hbf) as (s2 & m2 & Hs2 & Hr2 & Hm2).
  exists s1, s2. rewrite alfa_beta_evalua, alfa_beta_reverso_evalua.
  repeat split; trivial. congruence.
Qed.

Lemma ordenes_mismo_valor_witness :
  bien_formado arbol_3529 = true /\
  exists s1 s2,
    alfa_beta arbol_3529 MenosInf MasInf = Ok s1 /\
    alfa_beta_reverso arbol_3529 MenosInf MasInf = Ok s2 /\
    retorno s1 = retorno s2.
Proof.
  split; [reflexivity | apply (ordenes_mismo_valor arbol_3529); reflexivity].
Defined.

(** The marked nodes of the two runs can differ: on [[3,5],[2,9]] the
    left-to-right run marks the leaf 9 and the right-to-left run marks
    nothing. *)
Example podados_difieren :
  exists s1 s2,
    alfa_beta arbol_3529 MenosInf MasInf = Ok s1 /\
    alfa_beta_reverso arbol_3529 MenosInf MasInf = Ok s2 /\
    map id (filter podado (nodos (arbol s1))) = [6%Z] /\
    filter podado (nodos (arbol s2)) = [].
Proof.
  do 2 eexists. split; [vm_compute; reflexivity|].
  split; [vm_compute; reflexivity|]. split; reflexivity.
Qed.

(** ** Which nodes are marked *)

(** Left to right the marked nodes are the unvisited ones: on a tree without
    marks, after [alfa_beta], a node is marked if and only if no call of the
    evaluator reached it. *)
Lemma exclusividad_adelante (n : Nodo) (alfa beta : ext) (s : salida) :
  sin_podar n = true ->
  alfa_beta n alfa beta = Ok s ->
  forall p x, subarbol (arbol s) p = Some x ->
              (podado x = true <-> ~ In p (visitas s)).
Proof.
  intros Hsp Hs. rewrite alfa_beta_evalua in Hs.
  eapply exclusividad_evalua_adelante; eassumption.
Qed.

(** C1, right to left.  On the MAX root over the MIN children [[9,2,7],[3,5]]
    (no node marked, every leaf with a value), [alfa_beta_reverso] from
    (-inf, +inf) visits the leaf 7 and leaves it marked, and never visits
    the leaf 9 and leaves it unmarked. *)
Theorem exclusividad_reverso_falla :
  sin_podar arbol_92735 = true /\ bien_formado arbol_92735 = true /\
  exists s,
    alfa_beta_reverso arbol_92735 MenosInf MasInf = Ok s /\
    (exists x, subarbol (arbol s) [0; 2] = Some x /\
               valor x = Some (Fin 7) /\
               In [0; 2] (visitas s) /\ podado x = true) /\
    (exists y, subarbol (arbol s) [0; 0] = Some y /\
               valor y = Some (Fin 9) /\
               ~ In [0; 0] (visitas s) /\ podado y = false).
Proof.
  split; [reflexivity|]. split; [reflexivity|].
  eexists. split; [vm_compute; reflexivity|]. cbn [arbol visitas]. split.
  - eexists. split; [reflexivity|]. split; [reflexivity|].
    split; [simpl; auto 10 | reflexivity].
  - eexists. split; [reflexivity|]. split; [reflexivity|].
    split; [|reflexivity]. simpl. intros H.
    repeat (destruct H as [H|H]; [discriminate H|]). exact H.
Qed.

(** One iteration of the loop: the value and the bound are updated with the
    value of the child just visited, then [alfa >= beta] is tested; at a
    cutoff the visited child is stored as the call left it and the children
    after its position are marked. *)
Lemma bucle_paso (em : bool) (i : nat) (c : llamada)
      (pend : list (nat * llamada)) (v alfa beta : ext) (hs : list Nodo)
      (tr : list ruta) (s : salida) (vh : ext) :
  c alfa beta = Ok s -> retorno s = Some vh ->
  bucle em ((i, c) :: pend) v alfa beta hs tr =
  if ext_geb (if em then maximo alfa (mejor em v vh) else alfa)
             (if em then beta else minimo beta (mejor em v vh))
  then Ok (mejor em v vh, poda_desde (S i) (pon i (arbol s) hs),
           tr ++ map (cons i) (visitas s))
  else bucle em pend (mejor em v vh)
             (if em then maximo alfa (mejor em v vh) else alfa)
             (if em then beta else minimo beta (mejor em v vh))
             (pon i (arbol s) hs) (tr ++ map (cons i) (visitas s)).
Proof. intros Hs Hr. simpl. rewrite Hs, Hr. reflexivity. Qed.

(** C4, right to left.  The MIN node over the leaves [9,2,7], searched by
    [alfa_beta_reverso] with alfa = 3: the leaves 7 and 2 are visited in
    this order, the leaf 2 cuts (3 >= 2), and the marked child is the leaf
    7, visited before the cut, while the leaf 9, which follows the cutting
    child in the traversal, is not marked. *)
Theorem corte_reverso_marca_visitados :
  exists s,
    alfa_beta_reverso min_927 (Fin 3) MasInf = Ok s /\
    retorno s = Some (Fin 2) /\
    visitas s = [[]; [2]; [1]] /\
    map valor (hijos (arbol s)) = [Some (Fin 9); Some (Fin 2); Some (Fin 7)] /\
    map podado (hijos (arbol s)) = [false; false; true].
Proof.
  eexists. split; [vm_compute; reflexivity|]. repeat split; reflexivity.
Qed.

(** Left to right, the same node: the leaves 9 and 2 are visited, the leaf 2
    cuts and is not marked, and the leaf 7 that follows it is marked. *)
Example corte_adelante_marca_restantes :
  exists s,
    alfa_beta min_927 (Fin 3) MasInf = Ok s /\
    retorno s = Some (Fin 2) /\
    visitas s = [[]; [0]; [1]] /\
    map podado (hijos (arbol s)) = [false; false; true].
Proof.
  eexists. split; [vm_compute; reflexivity|]. repeat split; reflexivity.
Qed.

(** Equality of the bounds cuts: a MAX node searched with beta = 5 stops at
    a child of value 5. *)
Example corte_con_igualdad :
  exists s,
    alfa_beta (interno 0 true [hoja 1 5 false; hoja 2 8 false])
              MenosInf (Fin 5) = Ok s /\
    retorno s = Some (Fin 5) /\
    visitas s = [[]; [0]] /\
    map podado (hijos (arbol s)) = [false; true].
Proof.
  eexists. split; [vm_compute; reflexivity|]. repeat split; reflexivity.
Qed.

(** C5.  [marca_podado] marks the node it is applied to and every node of
    its subtree: at every route where the tree has a node, the marked tree
    has that node (same identifier, value, tag and number of children) with
    the flag set; it adds no node, so every node of the marked tree is
    marked.  It is called on every node of the subtree exactly once, and the
    node a call is applied to ends marked.  A tree without marks has its
    marks closed downwards, and an evaluation in either order (which returns
    on a well-formed tree) keeps them so: afterwards, under a marked node
    every node is marked. *)
Theorem marca_y_propagacion (n : Nodo) :
  podado (marca_podado n) = true /\
  (forall p x, subarbol n p = Some x ->
     exists y, subarbol (marca_podado n) p = Some y /\
               podado y = true /\
               id y = id x /\ valor y = valor x /\ es_max y = es_max x /\
               length (hijos y) = length (hijos x)) /\
  (forall p, subarbol n p = None -> subarbol (marca_podado n) p = None) /\
  length (nodos (marca_podado n)) = length (nodos n) /\
  (forall x, In x (nodos (marca_podado n)) -> podado x = true) /\
  NoDup (llamadas_marca_podado n) /\
  (forall p, In p (llamadas_marca_podado n) <-> subarbol n p <> None) /\
  (forall p, In p (llamadas_marca_podado n) ->
     exists y, subarbol (marca_podado n) p = Some y /\ podado y = true) /\
  (sin_podar n = true -> propagado n = true) /\
  (bien_formado n = true ->
   forall o alfa beta, exists s, evaluate o n alfa beta = Ok s) /\
  (forall o alfa beta s,
      propagado n = true -> evaluate o n alfa beta = Ok s ->
      propagado (arbol s) = true /\
      forall x, In x (nodos (arbol s)) -> podado x = true ->
                forall y, In y (nodos x) -> podado y = true).
Proof.
  split; [rewrite marca_podado_eq; reflexivity|].
  split.
  { intros p x Hx. exists (marca_podado x).
    rewrite subarbol_marca_podado, Hx. split; [reflexivity|].
    rewrite (marca_podado_eq x). simpl. rewrite length_map. auto. }
  split; [intros p Hp; rewrite subarbol_marca_podado, Hp; reflexivity|].
  split; [rewrite nodos_marca_podado; apply length_map|].
  split; [apply todo_podado_nodos, todo_podado_marca|].
  split; [apply llamadas_marca_podado_spec|].
  split; [apply llamadas_marca_podado_spec|].
  split.
  { intros p Hp. apply llamadas_marca_podado_spec in Hp.
    rewrite subarbol_marca_podado.
    destruct (subarbol n p) as [x|]; [|congruence].
    exists (marca_podado x). split; [reflexivity|].
    rewrite marca_podado_eq. reflexivity. }
  split; [apply sin_podar_propagado|].
  split; [intros Hbf o alfa beta; apply evaluate_total; exact Hbf|].
  intros o alfa beta s Hp Hs. rewrite evaluate_evalua in Hs.
  destruct (evalua_conserva_propagado _ _ _ _ _ Hs) as [_ H].
  specialize (H Hp). split; [exact H|].
  intros x Hx Hpx. apply todo_podado_nodos.
  eapply propagado_nodos; eassumption.
Qed.

Lemma marca_y_propagacion_witness :
  (exists y, subarbol (marca_podado arbol_3529) [1; 0] = Some y /\
             podado y = true /\
             id y = 5%Z /\ valor y = Some (Fin 2) /\ es_max y = true /\
             length (hijos y) = 0) /\
  propagado arbol_3529 = true /\
  exists s,
    alfa_beta arbol_3529 MenosInf MasInf = Ok s /\
    propagado (arbol s) = true /\
    forall x, In x (nodos (arbol s)) -> podado x = true ->
              forall y, In y (nodos x) -> podado y = true.
Proof.
  pose proof (marca_y_propagacion arbol_3529)
    as (_ & Hm & _ & _ & _ & _ & _ & _ & _ & _ & He).
  split; [apply (Hm [1; 0] (hoja 5 2 true)); reflexivity|].
  split; [reflexivity|]. eexists. split; [vm_compute; reflexivity|].
  apply (He Adelante MenosInf MasInf); reflexivity.
Defined.

(** ** Leaves *)

(** C6.  In either order and any window, the evaluation of a well-formed
    tree returns; a call on a leaf returns its stored value, leaves the leaf
    as it is and visits only it; and after the evaluation of a tree, at the
    place of every leaf there is a leaf with the same value (and identifier
    and tag), so only values of internal nodes are written. *)
Theorem hojas_intactas (o : Orden) (n : Nodo) (alfa beta : ext) :
  bien_formado n = true ->
  exists s,
    evaluate o n alfa beta = Ok s /\
    (es_hoja n = true -> s = mkSalida (valor n) n [[]]) /\
    (forall p x,
        subarbol n p = Some x -> es_hoja x = true ->
        exists y, subarbol (arbol s) p = Some y /\
                  es_hoja y = true /\ valor y = valor x /\
                  id y = id x /\ es_max y = es_max x).
Proof.
  intros Hbf. destruct (evaluate_total o n alfa beta Hbf) as (s & Hs).
  exists s. split; [exact Hs|].
  rewrite evaluate_evalua in Hs. split.
  - intros Hh. rewrite evalua_eq, Hh in Hs. congruence.
  - intros p x Hp Hx.
    destruct (evoluciona_subarbol p _ _ _ (evalua_evoluciona _ _ _ _ _ Hs) Hp)
      as (y & Hy & Hxy).
    exists y. split; [exact Hy|].
    rewrite (evoluciona_es_hoja _ _ Hxy).
    inversion Hxy as [? ? Hid Hem Hv Hpd Hh]; subst. auto.
Qed.

Lemma hojas_intactas_witness :
  bien_formado arbol_92735 = true /\
  exists s,
    evaluate Reverso arbol_92735 MenosInf MasInf = Ok s /\
    (es_hoja arbol_92735 = true ->
     s = mkSalida (valor arbol_92735) arbol_92735 [[]]) /\
    (forall p x,
        subarbol arbol_92735 p = Some x -> es_hoja x = true ->
        exists y, subarbol (arbol s) p = Some y /\
                  es_hoja y = true /\ valor y = valor x /\
                  id y = id x /\ es_max y = es_max x).
Proof.
  split; [reflexivity|].
  apply (hojas_intactas Reverso arbol_92735 MenosInf MasInf). reflexivity.
Defined.

(** The same without asking the tree to be well formed: whenever an
    evaluation returns, it has kept the leaves. *)
Lemma hojas_intactas_si_retorna (o : Orden) (n : Nodo) (alfa beta : ext)
      (s : salida) :
  evaluate o n alfa beta = Ok s ->
  forall p x,
    subarbol n p = Some x -> es_hoja x = true ->
    exists y, subarbol (arbol s) p = Some y /\
              es_hoja y = true /\ valor y = valor x.
Proof.
  rewrite evaluate_evalua. intros Hs p x Hp Hx.
  destruct (evoluciona_subarbol p _ _ _ (evalua_evoluciona _ _ _ _ _ Hs) Hp)
    as (y & Hy & Hxy).
  exists y. split; [exact Hy|].
  rewrite (evoluciona_es_hoja _ _ Hxy).
  inversion Hxy as [? ? Hid Hem Hv Hpd Hh]; subst. auto.
Qed.

(** ** Evaluating again *)

(** C8.  In a fixed order, on a well-formed tree, the evaluation from
    (-inf, +inf) has one result; run again on the tree it left, it returns
    the same value, visits the same nodes and leaves the tree, with every
    value and every mark, as the first run left it. *)
Theorem evaluacion_idempotente (o : Orden) (n : Nodo) :
  bien_formado n = true ->
  exists s,
    evaluate o n MenosInf MasInf = Ok s /\
    (forall s', evaluate o n MenosInf MasInf = Ok s' -> s' = s) /\
    evaluate o (arbol s) MenosInf MasInf = Ok s.
Proof.
  intros Hbf.
  destruct (evalua_minimax (es_reverso o) n Hbf) as (s & m & Hs & _).
  exists s. rewrite !evaluate_evalua. split; [exact Hs|]. split.
  - intros s' Hs'. congruence.
  - apply (evalua_idem _ n). exact Hs.
Qed.

Lemma evaluacion_idempotente_witness :
  bien_formado arbol_92735 = true /\
  exists s,
    evaluate Reverso arbol_92735 MenosInf MasInf = Ok s /\
    (forall s', evaluate Reverso arbol_92735 MenosInf MasInf = Ok s' -> s' = s) /\
    evaluate Reverso (arbol s) MenosInf MasInf = Ok s.
Proof.
  split; [reflexivity|].
  apply (evaluacion_idempotente Reverso arbol_92735). reflexivity.
Defined.

(** In any window: a second run with the bounds and the order of the first
    changes nothing. *)
Lemma evaluacion_idempotente_ventana (o : Orden) (n : Nodo) (alfa beta : ext)
      (s : salida) :
  evaluate o n alfa beta = Ok s -> evaluate o (arbol s) alfa beta = Ok s.
Proof. rewrite !evaluate_evalua. apply (evalua_idem _ n). Qed.

(** ** The generator *)

(** C9.  With a branching factor of at least 1 and a depth of at least 0,
    and fuel for the recursion, [crear_arbol] returns a tree in which every
    leaf is [profundidad] edges below the root, every internal node has
    [factor_ramificacion] children, every child has the tag opposite to its
    parent's, every leaf carries a value, and the identifiers in pre-order
    are 0, 1, 2, ...: strictly increasing and without repetition.  With
    depth 0 the root is a leaf with a value. *)
Theorem crear_arbol_correcto (factor_ramificacion profundidad : Z)
        (sorteo : nat -> Z) (combustible : nat) (raiz_es_max : bool) :
  (1 <= factor_ramificacion)%Z -> (0 <= profundidad)%Z ->
  Z.to_nat profundidad < combustible ->
  exists raiz,
    crear_arbol factor_ramificacion profundidad sorteo combustible raiz_es_max
    = Some raiz /\
    (forall p x, subarbol raiz p = Some x -> es_hoja x = true ->
                 Z.of_nat (length p) = profundidad) /\
    (forall x, In x (nodos raiz) ->
               (es_hoja x = false ->
                Z.of_nat (length (hijos x)) = factor_ramificacion) /\
               (forall h, In h (hijos x) -> es_max h = negb (es_max x)) /\
               (es_hoja x = true -> valor x <> None)) /\
    ids raiz = consecutivos 0 (length (nodos raiz)) /\
    StronglySorted Z.lt (ids raiz) /\
    NoDup (ids raiz) /\
    es_max raiz = raiz_es_max /\
    (profundidad = 0%Z -> es_hoja raiz = true /\ valor raiz <> None).
Proof.
  intros Hf Hd Hc. unfold crear_arbol.
  destruct (generar_subarbol_bien factor_ramificacion profundidad sorteo
              (Z.to_nat profundidad) combustible 0 raiz_es_max (mkEstado 0 0))
    as ([raiz st] & -> & Hcomp & Hids & _); [lia | exact Hc |].
  cbn [fst contador_id] in Hcomp, Hids. exists raiz. simpl.
  assert (Hf' : 1 <= Z.to_nat factor_ramificacion) by lia.
  split; [reflexivity|].
  split.
  { intros p x Hp Hx.
    rewrite (completo_hojas _ _ Hf' _ _ _ _ Hcomp Hp Hx). lia. }
  split.
  { intros x Hx.
    destruct (completo_nodos _ _ Hf' _ _ _ Hcomp Hx) as (H1 & H2 & H3).
    repeat split; trivial. intros Hh. rewrite (H1 Hh). lia. }
  split; [exact Hids|].
  split; [rewrite Hids; apply consecutivos_creciente|].
  split; [apply creciente_NoDup; rewrite Hids; apply consecutivos_creciente|].
  split; [eapply completo_es_max; exact Hcomp|].
  intros ->. simpl in Hcomp. destruct Hcomp as (_ & _ & Hh & Hv).
  split; [unfold es_hoja; rewrite Hh; reflexivity | exact Hv].
Qed.

Lemma crear_arbol_correcto_witness :
  (1 <= 3)%Z /\ (0 <= 2)%Z /\ Z.to_nat 2 < 3 /\
  exists raiz,
    crear_arbol 3 2 (fun k => Z.of_nat k) 3 true = Some raiz /\
    (forall p x, subarbol raiz p = Some x -> es_hoja x = true ->
                 Z.of_nat (length p) = 2%Z) /\
    (forall x, In x (nodos raiz) ->
               (es_hoja x = false -> Z.of_nat (length (hijos x)) = 3%Z) /\
               (forall h, In h (hijos x) -> es_max h = negb (es_max x)) /\
               (es_hoja x = true -> valor x <> None)) /\
    ids raiz = consecutivos 0 (length (nodos raiz)) /\
    StronglySorted Z.lt (ids raiz) /\
    NoDup (ids raiz) /\
    es_max raiz = true /\
    (2%Z = 0%Z -> es_hoja raiz = true /\ valor raiz <> None).
Proof.
  split; [lia|]. split; [lia|]. split; [simpl; lia|].
  apply (crear_arbol_correcto 3 2 (fun k => Z.of_nat k) 3 true);
    [lia | lia | simpl; lia].
Defined.

(** Depth 0: the root is a leaf that carries the first value drawn. *)
Example crear_arbol_profundidad_0 (factor : Z) (sorteo : nat -> Z) (em : bool) :
  crear_arbol factor 0 sorteo 1 em
  = Some (mkNodo 0 (Some (Fin (sorteo 0))) [] em false).
Proof. reflexivity. Qed.

(** The tree of the script: branching factor 3, depth 2, MAX root. *)
Example crear_arbol_3_2 :
  option_map ids (crear_arbol 3 2 (fun k => Z.of_nat k) 3 true)
  = Some [0; 1; 2; 3; 4; 5; 6; 7; 8; 9; 10; 11; 12]%Z.
Proof. reflexivity. Qed.

(** ** The frame of [marca_podado] *)

(** What holds of the frame: [marca_podado] writes only the flag (a marked
    node keeps its identifier, value and tag, and its children are the
    marked children, in the same positions, so the marked tree has the nodes
    of the tree at the same routes); and left to right, after [alfa_beta]
    (which returns on a well-formed tree) on a fresh tree (nothing marked,
    no internal node with a value), every marked internal node has no
    value. *)
Theorem marca_podado_solo_marca (n : Nodo) :
  (forall x, id (marca_podado x) = id x /\
             valor (marca_podado x) = valor x /\
             es_max (marca_podado x) = es_max x /\
             hijos (marca_podado x) = map marca_podado (hijos x) /\
             podado (marca_podado x) = true) /\
  (forall p, subarbol (marca_podado n) p
             = option_map marca_podado (subarbol n p)) /\
  (bien_formado n = true ->
   forall alfa beta, exists s, alfa_beta n alfa beta = Ok s) /\
  (forall alfa beta s,
      recien_creado n = true -> alfa_beta n alfa beta = Ok s ->
      forall x, In x (nodos (arbol s)) ->
                es_hoja x = false -> podado x = true -> valor x = None).
Proof.
  split; [intros x; rewrite marca_podado_eq; simpl; auto|].
  split; [intros p; apply subarbol_marca_podado|].
  split; [intros Hbf alfa beta; apply (evaluate_total Adelante); exact Hbf|].
  intros alfa beta s Hrc Hs. rewrite alfa_beta_evalua in Hs.
  eapply podados_sin_valor_evalua_adelante; eassumption.
Qed.

Lemma marca_podado_solo_marca_witness :
  recien_creado arbol_3529 = true /\
  exists s,
    alfa_beta arbol_3529 MenosInf MasInf = Ok s /\
    forall x, In x (nodos (arbol s)) ->
              es_hoja x = false -> podado x = true -> valor x = None.
Proof.
  split; [reflexivity|]. eexists. split; [vm_compute; reflexivity|].
  apply (proj2 (proj2 (proj2 (marca_podado_solo_marca arbol_3529)))
               MenosInf MasInf);
    reflexivity.
Defined.

(** C10.  That every internal node that ends marked has no value after the
    evaluation fails right to left (the frame of [marca_podado] and the left
    to right order are [marca_podado_solo_marca]).  The tree is fresh and all
    its leaves carry a value; [alfa_beta_reverso] returns on it; the internal
    node 3, at the route [0; 1], is visited by the evaluation, which writes
    the value 9 into it; its left sibling, visited next, cuts, and the slice
    [nodo.hijos[index + 1:]] marked at the cut holds the node 3: it ends
    with [podado = true] and the value 9, while the only call of
    [marca_podado] on it came after its evaluation. *)
Theorem podado_con_valor_reverso :
  recien_creado arbol_interno_visitado = true /\
  bien_formado arbol_interno_visitado = true /\
  exists s x,
    alfa_beta_reverso arbol_interno_visitado MenosInf MasInf = Ok s /\
    visitas s = [[]; [1]; [1; 0]; [0]; [0; 1]; [0; 1; 0]; [0; 0]] /\
    subarbol (arbol s) [0; 1] = Some x /\
    es_hoja x = false /\ podado x = true /\ valor x = Some (Fin 9) /\
    ~ (forall y, In y (nodos (arbol s)) ->
                 es_hoja y = false -> podado y = true -> valor y = None).
Proof.
  split; [reflexivity|]. split; [reflexivity|]. do 2 eexists.
  split; [vm_compute; reflexivity|].
  split; [reflexivity|]. split; [reflexivity|].
  split; [reflexivity|]. split; [reflexivity|]. split; [reflexivity|].
  intros H.
  specialize (H (mkNodo 3 (Some (Fin 9)) [mkNodo 4 (Some (Fin 9)) [] false true]
                        true true)).
  discriminate H; [simpl; tauto | reflexivity | reflexivity].
Qed.

(** The same on a tree of the generator: branching factor 2, depth 3 and the
    draws 3, 3, 7, 7, 5, 5, 6, 6.  The MAX node at the route [0; 1] is
    evaluated to 7, then its left sibling cuts and the node is marked. *)
Example podado_con_valor_reverso_generado :
  exists n s x,
    crear_arbol 2 3 (fun k => nth k [3; 3; 7; 7; 5; 5; 6; 6]%Z 0%Z) 4 true
    = Some n /\
    recien_creado n = true /\ bien_formado n = true /\
    alfa_beta_reverso n MenosInf MasInf = Ok s /\
    In [0; 1] (visitas s) /\
    subarbol (arbol s) [0; 1] = Some x /\
    es_hoja x = false /\ podado x = true /\ valor x = Some (Fin 7).
Proof.
  do 3 eexists. split; [vm_compute; reflexivity|].
  split; [reflexivity|]. split; [reflexivity|].
  split; [vm_compute; reflexivity|].
  split; [simpl; tauto|]. repeat split; reflexivity.
Qed.

(** * Further properties *)

(** ** Search in a window *)

(** X1.  On a well-formed tree, in either order and in any window
    [alfa < beta], the evaluation returns a value that places the minimax
    value [m] with respect to the window: at or below [alfa] when [m] is, at
    or above [beta] when [m] is, and [m] itself when [m] is strictly
    inside. *)
Theorem busqueda_en_ventana (o : Orden) (n : Nodo) (alfa beta : ext) :
  bien_formado n = true -> ext_lt alfa beta ->
  exists s v m,
    evaluate o n alfa beta = Ok s /\ retorno s = Some v /\
    minimax n = Some m /\
    (ext_le m alfa -> ext_le v alfa) /\
    (ext_le beta m -> ext_le beta v) /\
    (ext_lt alfa m -> ext_lt m beta -> v = m).
Proof.
  intros Hbf Hlt.
  destruct (evalua_valor (es_reverso o) n Hbf) as (m & Hm & Hb).
  destruct (Hb alfa beta Hlt) as (s & v & Hs & Hr & Hac).
  exists s, v, m. rewrite evaluate_evalua. auto.
Qed.

Lemma busqueda_en_ventana_witness :
  bien_formado arbol_92735 = true /\ ext_lt (Fin 4) (Fin 6) /\
  exists s v m,
    evaluate Reverso arbol_92735 (Fin 4) (Fin 6) = Ok s /\
    retorno s = Some v /\ minimax arbol_92735 = Some m /\
    (ext_le m (Fin 4) -> ext_le v (Fin 4)) /\
    (ext_le (Fin 6) m -> ext_le (Fin 6) v) /\
    (ext_lt (Fin 4) m -> ext_lt m (Fin 6) -> v = m).
Proof.
  split; [reflexivity|]. split; [reflexivity|].
  apply (busqueda_en_ventana Reverso arbol_92735 (Fin 4) (Fin 6));
    reflexivity.
Defined.

(** ** The frame of the evaluators *)

Lemma evoluciona_length (x y : Nodo) :
  evoluciona x y -> length (hijos y) = length (hijos x).
Proof.
  intros H. inversion H as [? ? Hid Hem Hv Hp Hh]; subst.
  symmetry. eapply Forall2_length. exact Hh.
Qed.

Lemma evoluciona_subarbol_None (p : ruta) :
  forall x y, evoluciona x y -> subarbol x p = None -> subarbol y p = None.
Proof.
  induction p as [|i q IH]; intros x y Hxy; simpl; [discriminate|].
  inversion Hxy as [? ? Hid Hem Hv Hp Hh]; subst.
  destruct (nth_error (hijos x) i) as [h|] eqn:Hi.
  - destruct (Forall2_nth_error _ _ _ _ _ Hh Hi) as (h' & -> & Hhh').
    apply IH. exact Hhh'.
  - intros _. apply nth_error_None in Hi.
    rewrite (Forall2_length Hh) in Hi. apply nth_error_None in Hi.
    rewrite Hi. reflexivity.
Qed.

Lemma evalua_podado_raiz (rv : bool) (n : Nodo) (alfa beta : ext) (s : salida) :
  evalua rv n alfa beta = Ok s -> podado (arbol s) = podado n.
Proof.
  rewrite evalua_eq. destruct (es_hoja n).
  - intros [= <-]. reflexivity.
  - destruct (bucle _ _ _ _ _ _ _) as [[[v hs'] tr']|]; [|discriminate].
    simpl. intros [= <-]. reflexivity.
Qed.

(** X2.  An evaluation that returns, in either order and any window, keeps
    the shape of the tree and writes only values and marks: the result has a
    node exactly at the routes of the tree, each with the identifier, the
    tag and the number of children of the node it comes from; no mark is
    cleared, and the mark of the root is not touched. *)
Theorem evaluacion_conserva_forma (o : Orden) (n : Nodo) (alfa beta : ext)
        (s : salida) :
  evaluate o n alfa beta = Ok s ->
  podado (arbol s) = podado n /\
  forall p,
    (subarbol n p = None -> subarbol (arbol s) p = None) /\
    (forall x, subarbol n p = Some x ->
               exists y, subarbol (arbol s) p = Some y /\
                         id y = id x /\ es_max y = es_max x /\
                         length (hijos y) = length (hijos x) /\
                         (podado x = true -> podado y = true)).
Proof.
  rewrite evaluate_evalua. intros Hs.
  split; [eapply evalua_podado_raiz; exact Hs|].
  pose proof (evalua_evoluciona _ _ _ _ _ Hs) as He. intros p. split.
  - apply evoluciona_subarbol_None. exact He.
  - intros x Hx.
    destruct (evoluciona_subarbol p _ _ _ He Hx) as (y & Hy & Hxy).
    exists y. split; [exact Hy|].
    pose proof (evoluciona_length _ _ Hxy) as Hlen.
    inversion Hxy as [? ? Hid Hem Hv Hp Hh]; subst. auto.
Qed.

Lemma evaluacion_conserva_forma_witness :
  exists s,
    evaluate Reverso arbol_92735 MenosInf MasInf = Ok s /\
    podado (arbol s) = podado arbol_92735 /\
    forall p,
      (subarbol arbol_92735 p = None -> subarbol (arbol s) p = None) /\
      (forall x, subarbol arbol_92735 p = Some x ->
                 exists y, subarbol (arbol s) p = Some y /\
                           id y = id x /\ es_max y = es_max x /\
                           length (hijos y) = length (hijos x) /\
                           (podado x = true -> podado y = true)).
Proof.
  eexists. split; [vm_compute; reflexivity|].
  apply (evaluacion_conserva_forma Reverso arbol_92735 MenosInf MasInf).
  reflexivity.
Defined.

(** ** Marking and evaluating *)

(** X3.  Marking twice is marking once, and marking commutes with
    evaluating: on the marked tree an evaluation (either order, any window)
    returns the same value after the same visits, and leaves the marked
    version of the tree it would have left. *)
Theorem marca_podado_conmuta (o : Orden) (n : Nodo) (alfa beta : ext)
        (s : salida) :
  evaluate o n alfa beta = Ok s ->
  marca_podado (marca_podado n) = marca_podado n /\
  evaluate o (marca_podado n) alfa beta
  = Ok (mkSalida (retorno s) (marca_podado (arbol s)) (visitas s)).
Proof.
  rewrite !evaluate_evalua. intros Hs.
  split; [apply marca_podado_idem | apply evalua_marcado; exact Hs].
Qed.

Lemma marca_podado_conmuta_witness :
  exists s,
    evaluate Adelante arbol_3529 MenosInf MasInf = Ok s /\
    marca_podado (marca_podado arbol_3529) = marca_podado arbol_3529 /\
    evaluate Adelante (marca_podado arbol_3529) MenosInf MasInf
    = Ok (mkSalida (retorno s) (marca_podado (arbol s)) (visitas s)).
Proof.
  eexists. split; [vm_compute; reflexivity|].
  apply (marca_podado_conmuta Adelante arbol_3529 MenosInf MasInf).
  reflexivity.
Defined.

(** ** The visits of an evaluation *)

Lemma valor_marca_podado (n : Nodo) : valor (marca_podado n) = valor n.
Proof. rewrite marca_podado_eq. reflexivity. Qed.

Lemma bucle_visitas (em : bool) (hs0 : list Nodo) (pend : list (nat * llamada)) :
  NoDup (map fst pend) ->
  Forall (fun ic => fst ic < length hs0 /\
                    forall alfa beta s, snd ic alfa beta = Ok s -> visita_bien s)
         pend ->
  forall v alfa beta hs tr v' hs' tr',
    length hs = length hs0 ->
    traza_bien hs pend tr ->
    bucle em pend v alfa beta hs tr = Ok (v', hs', tr') ->
    traza_bien hs' [] tr'.
Proof.
  induction pend as [|[i c] pend IH]; intros Hnd HF v alfa beta hs tr v' hs' tr' Hlen Htr;
    simpl.
  - intros [= _ <- <-]. exact Htr.
  - simpl in Hnd. apply NoDup_cons_iff in Hnd as [Hni Hnd].
    apply Forall_cons_iff in HF as [[Hi Hc] HF]. simpl in Hi, Hc.
    destruct (c alfa beta) as [s|] eqn:Hs; [|discriminate].
    destruct (retorno s) as [vh|] eqn:Hr; [|discriminate].
    destruct (Hc _ _ _ Hs) as (Hrv & Hnds & Hraiz & Hq).
    destruct Htr as [Hndt Hp].
    assert (Htr1 : traza_bien (pon i (arbol s) hs) pend
                              (tr ++ map (cons i) (visitas s))).
    { split.
      - apply NoDup_app; [exact Hndt | apply NoDup_map_cons; exact Hnds |].
        intros p Hin Hin'. apply in_map_iff in Hin' as (q & <- & _).
        destruct (Hp _ Hin) as [[=]|(j & q' & c0 & y & [= <- <-] & Hj & _)].
        apply Hj. simpl. left; reflexivity.
      - intros p Hin. apply in_app_iff in Hin as [Hin|Hin].
        + destruct (Hp _ Hin) as [->|(j & q & c0 & y & -> & Hj & Hn & Hy & Hv)];
            [left; reflexivity|].
          right. exists j, q, c0, y. simpl in Hj.
          repeat split; trivial; [tauto|].
          rewrite nth_error_pon_neq; [exact Hn|]. intros ->. tauto.
        + apply in_map_iff in Hin as (q & <- & Hin). right.
          destruct (Hq _ Hin) as (y & Hy & Hv).
          exists i, q, (arbol s), y. repeat split; trivial.
          * apply nth_error_pon_eq. lia.
          * destruct q as [|a q]; [|apply Hv; discriminate].
            simpl in Hy. injection Hy as <-. rewrite <- Hrv, Hr. discriminate. }
    destruct (ext_geb _ _).
    + intros [= _ <- <-]. destruct Htr1 as [Hnd1 Hp1]. split; [exact Hnd1|].
      intros p Hin.
      destruct (Hp1 _ Hin) as [->|(j & q & c0 & y & -> & Hj & Hn & Hy & Hv)];
        [left; reflexivity|].
      right.
      pose proof (nth_error_poda_desde (S i) (pon i (arbol s) hs) j) as Hpd.
      rewrite Hn in Hpd. destruct (j <? S i).
      * exists j, q, c0, y. repeat split; trivial. intros [].
      * exists j, q, (marca_podado c0), (marca_podado y).
        repeat split; trivial; [intros [] | |].
        -- rewrite subarbol_marca_podado, Hy. reflexivity.
        -- rewrite valor_marca_podado. exact Hv.
    + apply IH; trivial. rewrite pon_length. exact Hlen.
Qed.

Lemma bucle_traza_crece (em : bool) (pend : list (nat * llamada)) :
  forall v alfa beta hs tr v' hs' tr' p,
    bucle em pend v alfa beta hs tr = Ok (v', hs', tr') ->
    In p tr -> In p tr'.
Proof.
  induction pend as [|[i c] pend IH]; intros v alfa beta hs tr v' hs' tr' p;
    simpl.
  - intros [= _ _ <-]. trivial.
  - destruct (c alfa beta) as [s|]; [|discriminate].
    destruct (retorno s); [|discriminate].
    destruct (ext_geb _ _).
    + intros [= _ _ <-] Hp. apply in_app_iff. left; exact Hp.
    + intros Hb Hp. eapply IH; [exact Hb|]. apply in_app_iff. left; exact Hp.
Qed.

Lemma pendientes_menores (f : Nodo -> llamada) (hs : list Nodo) :
  Forall (fun ic => fst ic < length hs) (pendientes f hs).
Proof.
  pose proof (pendientes_llamadas f hs) as H. revert H.
  apply Forall_impl. intros [i c] (x & Hx & _). simpl in *.
  apply nth_error_Some. congruence.
Qed.

Lemma evalua_visita_bien (rv : bool) (n : Nodo) :
  forall alfa beta s, evalua rv n alfa beta = Ok s -> visita_bien s.
Proof.
  induction n as [n IH] using Nodo_ind_hijos. intros alfa beta s.
  rewrite evalua_eq. destruct (es_hoja n) eqn:Hh.
  - intros [= <-]. unfold visita_bien. simpl.
    repeat split; [constructor; [intros [] | constructor] | auto |].
    intros q [<-|[]]. exists n. split; [reflexivity | congruence].
  - destruct (bucle _ _ _ _ _ _ _) as [[[v hs'] tr']|] eqn:Hb; [|discriminate].
    cbn [cierra]. intros [= <-]. unfold visita_bien. cbn [retorno arbol visitas valor].
    assert (Htr : traza_bien hs' [] tr' /\ In [] tr').
    { split.
      - eapply (bucle_visitas (es_max n) (hijos n)); [| | reflexivity | | exact Hb].
        + apply orden_indices.
        + apply Forall_orden.
          pose proof (pendientes_llamadas (evalua rv) (hijos n)) as Hp.
          rewrite Forall_forall in *. intros [i c] Hic.
          destruct (Hp _ Hic) as (x & Hx & Hf). simpl in *. subst c. split.
          * apply nth_error_Some. congruence.
          * intros a b s' Hs'. apply (IH x (nth_error_In _ _ Hx) a b s' Hs').
        + split; [constructor; [intros [] | constructor]|].
          intros p [<-|[]]. left; reflexivity.
      - eapply bucle_traza_crece; [exact Hb | left; reflexivity]. }
    destruct Htr as [[Hnd Hp] Hraiz].
    repeat split; trivial.
    intros q Hq. destruct (Hp _ Hq) as [->|(i & q' & c & y & -> & _ & Hn & Hy & Hv)].
    + eexists. split; [reflexivity | congruence].
    + exists y. simpl. rewrite Hn. split; [exact Hy | intros _; exact Hv].
Qed.

Lemma length_bajo_llamadas (hs : list Nodo) :
  Forall (fun h => length (llamadas_marca_podado h) = length (nodos h)) hs ->
  forall k, length (bajo k (map llamadas_marca_podado hs))
            = length (flat_map nodos hs).
Proof.
  induction 1 as [|h t Hh _ IH]; intros k; [reflexivity|].
  change (map llamadas_marca_podado (h :: t))
    with (llamadas_marca_podado h :: map llamadas_marca_podado t).
  change (flat_map nodos (h :: t)) with (nodos h ++ flat_map nodos t).
  rewrite bajo_cons, !length_app, (length_map (cons k)).
  f_equal; [exact Hh | apply IH].
Qed.

Lemma llamadas_marca_podado_length (n : Nodo) :
  length (llamadas_marca_podado n) = length (nodos n).
Proof.
  induction n as [n IH] using Nodo_ind_hijos.
  rewrite llamadas_marca_podado_eq, nodos_eq. simpl. f_equal.
  apply length_bajo_llamadas. exact IH.
Qed.

Lemma evoluciona_nodos_length (x : Nodo) :
  forall y, evoluciona x y -> length (nodos y) = length (nodos x).
Proof.
  induction x as [x IH] using Nodo_ind_hijos. intros y Hxy.
  inversion Hxy as [? ? Hid Hem Hv Hp Hh]; subst.
  rewrite (nodos_eq x), (nodos_eq y). simpl. f_equal.
  clear - IH Hh. induction Hh as [|a b t1 t2 Hab _ IHt]; [reflexivity|].
  simpl. rewrite !length_app. f_equal.
  - apply (Forall_inv IH). exact Hab.
  - apply IHt. apply (Forall_inv_tail IH).
Qed.

(** X4.  When an evaluation returns (either order, any window): what it
    returns is the value stored in the root; the root is visited; no node
    is visited twice; every visited route is a node of the tree, and below
    the root every visited node carries a value afterwards (as does an
    internal root); so the evaluator is called on at most as many nodes as
    the tree has. *)
Theorem visitas_de_la_evaluacion (o : Orden) (n : Nodo) (alfa beta : ext)
        (s : salida) :
  evaluate o n alfa beta = Ok s ->
  retorno s = valor (arbol s) /\
  (es_hoja n = false -> valor (arbol s) <> None) /\
  In [] (visitas s) /\
  NoDup (visitas s) /\
  (forall q, In q (visitas s) ->
             exists y, subarbol (arbol s) q = Some y /\
                       (q <> [] -> valor y <> None)) /\
  length (visitas s) <= length (nodos n).
Proof.
  rewrite evaluate_evalua. intros Hs.
  destruct (evalua_visita_bien _ _ _ _ _ Hs) as (Hrv & Hnd & Hraiz & Hq).
  split; [exact Hrv|]. split.
  { intros Hh. rewrite evalua_eq, Hh in Hs.
    destruct (bucle _ _ _ _ _ _ _) as [[[v hs'] tr']|]; [|discriminate].
    simpl in Hs. injection Hs as <-. discriminate. }
  split; [exact Hraiz|]. split; [exact Hnd|]. split; [exact Hq|].
  rewrite <- (evoluciona_nodos_length _ _ (evalua_evoluciona _ _ _ _ _ Hs)).
  rewrite <- llamadas_marca_podado_length.
  apply NoDup_incl_length; [exact Hnd|].
  intros q Hin. apply llamadas_marca_podado_spec.
  destruct (Hq _ Hin) as (y & -> & _). discriminate.
Qed.

Lemma visitas_de_la_evaluacion_witness :
  exists s,
    evaluate Adelante arbol_3529 MenosInf MasInf = Ok s /\
    retorno s = valor (arbol s) /\
    (es_hoja arbol_3529 = false -> valor (arbol s) <> None) /\
    In [] (visitas s) /\
    NoDup (visitas s) /\
    (forall q, In q (visitas s) ->
               exists y, subarbol (arbol s) q = Some y /\
                         (q <> [] -> valor y <> None)) /\
    length (visitas s) <= length (nodos arbol_3529).
Proof.
  eexists. split; [vm_compute; reflexivity|].
  apply (visitas_de_la_evaluacion Adelante arbol_3529 MenosInf MasInf).
  reflexivity.
Defined.

(** ** The children that a node's loop does not visit *)

Lemma nth_error_finales_Some (t : list Nodo) :
  forall regs i h r,
    nth_error t i = Some h -> nth_error regs i = Some r ->
    nth_error (finales t regs) i = Some (hijo_final h r).
Proof.
  unfold finales.
  induction t as [|x t IH]; intros [|r0 regs] [|i] h r; simpl; try discriminate.
  - intros [= <-] [= <-]. reflexivity.
  - apply IH.
Qed.

Lemma bucle_adelante_prefijo (f : Nodo -> llamada) (em : bool) (t : list Nodo) :
  (forall x a b s, f x a b = Ok s -> In [] (visitas s)) ->
  forall pre v alfa beta tr v' hs' tr',
    (forall i, length pre <= i -> ~ In [i] tr) ->
    bucle em (combine (seq (length pre) (length t)) (map f t))
          v alfa beta (pre ++ t) tr = Ok (v', hs', tr') ->
    forall j j', length pre <= j' -> j' < j -> In [j] tr' -> In [j'] tr'.
Proof.
  intros Hf. induction t as [|x t IH];
    intros pre v alfa beta tr v' hs' tr' Htr; simpl.
  - intros [= _ _ <-] j j' Hj' Hjj Hin. exfalso. apply (Htr j); [lia | exact Hin].
  - destruct (f x alfa beta) as [s|] eqn:Hs; [|discriminate].
    destruct (retorno s) as [vh|]; [|discriminate].
    pose proof (Hf _ _ _ _ Hs) as Hraiz.
    assert (Hk : In [length pre] (tr ++ map (cons (length pre)) (visitas s))).
    { apply in_app_iff. right. apply in_map_iff. eauto. }
    assert (Htr1 : forall i, S (length pre) <= i ->
                   ~ In [i] (tr ++ map (cons (length pre)) (visitas s))).
    { intros i Hi Hin. apply in_app_iff in Hin as [Hin|Hin].
      - apply (Htr i); [lia | exact Hin].
      - apply in_map_iff in Hin as (q & [= <- _] & _). lia. }
    rewrite pon_app_medio. destruct (ext_geb _ _).
    + intros [= _ _ <-] j j' Hj' Hjj Hin. exfalso.
      apply (Htr1 j); [lia | exact Hin].
    + intros Hb j j' Hj' Hjj Hin.
      replace (pre ++ arbol s :: t) with ((pre ++ [arbol s]) ++ t) in Hb
        by (rewrite <- app_assoc; reflexivity).
      replace (S (length pre)) with (length (pre ++ [arbol s])) in Hb, Htr1
        by (rewrite length_app; simpl; lia).
      destruct (Nat.eq_dec j' (length pre)) as [->|Hne].
      * eapply bucle_traza_crece; [exact Hb | exact Hk].
      * apply (IH _ _ _ _ _ _ _ _ Htr1 Hb j j'); trivial.
        rewrite length_app. simpl. lia.
Qed.

Lemma rev_seq_S (B : nat) : rev (seq 0 (S B)) = B :: rev (seq 0 B).
Proof. rewrite seq_S, rev_app_distr. reflexivity. Qed.

Lemma bucle_reverso_intactos (em : bool) (B : nat) :
  forall pend v alfa beta hs tr v' hs' tr',
    map fst pend = rev (seq 0 B) ->
    Forall (fun ic => forall a b s, snd ic a b = Ok s -> In [] (visitas s))
           pend ->
    (forall i, i < B -> ~ In [i] tr) ->
    bucle em pend v alfa beta hs tr = Ok (v', hs', tr') ->
    forall j, j < B ->
      (~ In [j] tr' -> nth_error hs' j = nth_error hs j) /\
      (In [j] tr' -> forall j', j < j' -> j' < B -> In [j'] tr').
Proof.
  induction B as [|B IH]; intros pend v alfa beta hs tr v' hs' tr' Hidx HF Htr Hb j Hj;
    [lia|].
  rewrite rev_seq_S in Hidx. destruct pend as [|[i c] pend]; [discriminate|].
  simpl in Hidx. injection Hidx as -> Hidx.
  apply Forall_cons_iff in HF as [Hc HF]. simpl in Hc, Hb.
  destruct (c alfa beta) as [s|] eqn:Hs; [|discriminate].
  destruct (retorno s) as [vh|]; [|discriminate].
  pose proof (Hc _ _ _ Hs) as Hraiz.
  assert (HB : In [B] (tr ++ map (cons B) (visitas s))).
  { apply in_app_iff. right. apply in_map_iff. eauto. }
  assert (Htr1 : forall i, i < B -> ~ In [i] (tr ++ map (cons B) (visitas s))).
  { intros i Hi Hin. apply in_app_iff in Hin as [Hin|Hin].
    - apply (Htr i); [lia | exact Hin].
    - apply in_map_iff in Hin as (q & [= <- _] & _). lia. }
  destruct (ext_geb _ _).
  - injection Hb as _ <- <-. split.
    + intros Hnj. assert (j <> B) by (intros ->; tauto).
      rewrite nth_error_poda_desde.
      replace (j <? S B) with true by (symmetry; apply Nat.ltb_lt; lia).
      apply nth_error_pon_neq. lia.
    + intros Hin j' Hjj Hj'. exfalso.
      destruct (Nat.eq_dec j B) as [->|Hne]; [lia|].
      apply (Htr1 j); [lia | exact Hin].
  - pose proof (bucle_traza_crece _ _ _ _ _ _ _ _ _ _ [B] Hb HB) as HB'.
    destruct (Nat.eq_dec j B) as [->|Hne].
    + split; [tauto | intros _ j' Hjj Hj'; lia].
    + destruct (IH _ _ _ _ _ _ _ _ _ Hidx HF Htr1 Hb j ltac:(lia)) as [H1 H2].
      split.
      * intros Hnj. rewrite (H1 Hnj). apply nth_error_pon_neq. lia.
      * intros Hin j' Hjj Hj'.
        destruct (Nat.eq_dec j' B) as [->|Hne']; [exact HB'|].
        apply (H2 Hin); lia.
Qed.

Lemma evalua_visita_raiz (rv : bool) (n : Nodo) (alfa beta : ext) (s : salida) :
  evalua rv n alfa beta = Ok s -> In [] (visitas s).
Proof. intros Hs. apply (evalua_visita_bien _ _ _ _ _ Hs). Qed.

(** X5.  Left to right, when [alfa_beta] returns on a node: the children it
    visited are the first ones of [nodo.hijos], and a child it did not visit
    is returned as [marca_podado] leaves it. *)
Theorem hijos_no_visitados_adelante (n : Nodo) (alfa beta : ext) (s : salida)
        (i : nat) (h : Nodo) :
  alfa_beta n alfa beta = Ok s ->
  nth_error (hijos n) i = Some h ->
  (In [i] (visitas s) -> forall j, j < i -> In [j] (visitas s)) /\
  (~ In [i] (visitas s) ->
   nth_error (hijos (arbol s)) i = Some (marca_podado h)).
Proof.
  rewrite alfa_beta_evalua, evalua_eq. intros Hs Hi.
  assert (Hh : es_hoja n = false).
  { unfold es_hoja. destruct (hijos n); [destruct i; discriminate | reflexivity]. }
  rewrite Hh in Hs.
  destruct (bucle _ _ _ _ _ _ _) as [[[v hs'] tr']|] eqn:Hb; [|discriminate].
  cbn [cierra] in Hs. injection Hs as <-. cbn [arbol visitas hijos].
  split.
  - intros Hin j Hj.
    eapply (bucle_adelante_prefijo (evalua false) (es_max n) (hijos n)) with
      (pre := []) (tr := [[]]) (j := i) (j' := j);
      [ | | exact Hb | simpl; lia | exact Hj | exact Hin ].
    + intros x a b s0 Hs0. eapply evalua_visita_raiz. exact Hs0.
    + intros k _ H. destruct H as [H|[]]. discriminate H.
  - intros Hni.
    apply (bucle_adelante_forma (evalua false) (es_max n) (hijos n) [])
      in Hb as (regs & Hlen & -> & -> & HF).
    destruct (Forall2_nth_error _ _ _ _ _ HF Hi) as (r & Hr & Hrs).
    simpl. rewrite (nth_error_finales_Some _ _ _ _ _ Hi Hr).
    destruct r as [sh|]; [|reflexivity]. exfalso. apply Hni.
    destruct (Hrs sh eq_refl) as (a & b & Hsh).
    right. apply in_bajo_0. exists (visitas sh).
    rewrite nth_error_map, Hr. split; [reflexivity|].
    eapply evalua_visita_raiz. exact Hsh.
Qed.

Lemma hijos_no_visitados_adelante_witness :
  exists s h,
    alfa_beta min_927 (Fin 3) MasInf = Ok s /\
    nth_error (hijos min_927) 2 = Some h /\
    (In [2] (visitas s) -> forall j, j < 2 -> In [j] (visitas s)) /\
    (~ In [2] (visitas s) ->
     nth_error (hijos (arbol s)) 2 = Some (marca_podado h)).
Proof.
  do 2 eexists. split; [vm_compute; reflexivity|]. split; [reflexivity|].
  apply (hijos_no_visitados_adelante min_927 (Fin 3) MasInf); reflexivity.
Defined.

(** X6.  Right to left, when [alfa_beta_reverso] returns on a node: the
    children it visited are the last ones of [nodo.hijos], and a child it
    did not visit is returned exactly as it was, unmarked. *)
Theorem hijos_no_visitados_reverso (n : Nodo) (alfa beta : ext) (s : salida)
        (i : nat) (h : Nodo) :
  alfa_beta_reverso n alfa beta = Ok s ->
  nth_error (hijos n) i = Some h ->
  (In [i] (visitas s) ->
   forall j, i < j -> j < length (hijos n) -> In [j] (visitas s)) /\
  (~ In [i] (visitas s) -> nth_error (hijos (arbol s)) i = Some h).
Proof.
  rewrite alfa_beta_reverso_evalua, evalua_eq. intros Hs Hi.
  assert (Hh : es_hoja n = false).
  { unfold es_hoja. destruct (hijos n); [destruct i; discriminate | reflexivity]. }
  rewrite Hh in Hs.
  destruct (bucle _ _ _ _ _ _ _) as [[[v hs'] tr']|] eqn:Hb; [|discriminate].
  cbn [cierra] in Hs. injection Hs as <-. cbn [arbol visitas hijos].
  assert (HiB : i < length (hijos n)) by (apply nth_error_Some; congruence).
  destruct (bucle_reverso_intactos (es_max n) (length (hijos n))
              (rev (pendientes (evalua true) (hijos n)))
              (inicial (es_max n)) alfa beta (hijos n) [[]] v hs' tr')
    with (j := i) as [H1 H2]; trivial.
  { rewrite map_rev, pendientes_indices. reflexivity. }
  { apply Forall_rev, Forall_forall. intros [k c] Hin a b s0 Hs0.
    pose proof (pendientes_llamadas (evalua true) (hijos n)) as Hp.
    rewrite Forall_forall in Hp.
    destruct (Hp _ Hin) as (x & _ & Hf). simpl in *. subst c.
    eapply evalua_visita_raiz. exact Hs0. }
  { intros k _ H. destruct H as [H|[]]. discriminate H. }
  split; [exact H2|]. intros Hni. rewrite (H1 Hni). exact Hi.
Qed.

Lemma hijos_no_visitados_reverso_witness :
  exists s h,
    alfa_beta_reverso min_927 (Fin 3) MasInf = Ok s /\
    nth_error (hijos min_927) 0 = Some h /\
    (In [0] (visitas s) ->
     forall j, 0 < j -> j < length (hijos min_927) -> In [j] (visitas s)) /\
    (~ In [0] (visitas s) -> nth_error (hijos (arbol s)) 0 = Some h).
Proof.
  do 2 eexists. split; [vm_compute; reflexivity|]. split; [reflexivity|].
  apply (hijos_no_visitados_reverso min_927 (Fin 3) MasInf); reflexivity.
Defined.

(** ** An empty window *)

Lemma ventana_vacia_corta (em : bool) (alfa beta v : ext) :
  ext_geb alfa beta = true ->
  ext_geb (if em then maximo alfa (mejor em (inicial em) v) else alfa)
          (if em then beta else minimo beta (mejor em (inicial em) v)) = true /\
  mejor em (inicial em) v = v.
Proof. destruct em; ext_solve. Qed.

Lemma pendientes_cons (f : Nodo -> llamada) (h : Nodo) (t : list Nodo) :
  pendientes f (h :: t)
  = (0, f h) :: combine (seq 1 (length t)) (map f t).
Proof. reflexivity. Qed.

Lemma combine_seq_ultimo (f : Nodo -> llamada) (t : list Nodo) (h : Nodo) :
  forall k,
    combine (seq k (length (t ++ [h]))) (map f (t ++ [h]))
    = combine (seq k (length t)) (map f t) ++ [(k + length t, f h)].
Proof.
  induction t as [|x t IH]; intros k; simpl.
  - rewrite Nat.add_0_r. reflexivity.
  - rewrite IH, Nat.add_succ_r. reflexivity.
Qed.

Lemma pendientes_ultimo (f : Nodo -> llamada) (t : list Nodo) (h : Nodo) :
  rev (pendientes f (t ++ [h])) = (length t, f h) :: rev (pendientes f t).
Proof.
  unfold pendientes. rewrite combine_seq_ultimo, rev_app_distr. reflexivity.
Qed.

(** X7.  An empty window, left to right: with [alfa >= beta], [alfa_beta] on
    an internal node visits its first child only, returns the value of that
    child and marks every other child. *)
Theorem ventana_vacia_adelante (n h : Nodo) (t : list Nodo) (alfa beta : ext)
        (sh : salida) (vh : ext) :
  hijos n = h :: t ->
  ext_geb alfa beta = true ->
  alfa_beta h alfa beta = Ok sh -> retorno sh = Some vh ->
  alfa_beta n alfa beta
  = Ok (mkSalida (Some vh)
                 (mkNodo (id n) (Some vh) (arbol sh :: map marca_podado t)
                         (es_max n) (podado n))
                 ([] :: map (cons 0) (visitas sh))).
Proof.
  intros Hn Hgeb Hsh Hr. rewrite alfa_beta_evalua in *. rewrite evalua_eq.
  unfold es_hoja. rewrite Hn. cbn [orden]. rewrite pendientes_cons.
  cbn [bucle]. rewrite Hsh, Hr.
  destruct (ventana_vacia_corta (es_max n) alfa beta vh Hgeb) as [-> ->].
  reflexivity.
Qed.

Lemma ventana_vacia_adelante_witness :
  exists sh,
    hijos min_927 = hoja 2 9 true :: [hoja 3 2 true; hoja 4 7 true] /\
    ext_geb (Fin 5) (Fin 5) = true /\
    alfa_beta (hoja 2 9 true) (Fin 5) (Fin 5) = Ok sh /\
    retorno sh = Some (Fin 9) /\
    alfa_beta min_927 (Fin 5) (Fin 5)
    = Ok (mkSalida (Some (Fin 9))
                   (mkNodo (id min_927) (Some (Fin 9))
                           (arbol sh
                            :: map marca_podado [hoja 3 2 true; hoja 4 7 true])
                           (es_max min_927) (podado min_927))
                   ([] :: map (cons 0) (visitas sh))).
Proof.
  eexists. split; [reflexivity|]. split; [reflexivity|].
  split; [reflexivity|]. split; [reflexivity|].
  apply (ventana_vacia_adelante min_927 (hoja 2 9 true)
           [hoja 3 2 true; hoja 4 7 true] (Fin 5) (Fin 5)); reflexivity.
Defined.

(** X8.  An empty window, right to left: with [alfa >= beta],
    [alfa_beta_reverso] on an internal node visits its last child only and
    returns the value of that child; the other children, though not
    visited, are left as they were, unmarked. *)
Theorem ventana_vacia_reverso (n h : Nodo) (t : list Nodo) (alfa beta : ext)
        (sh : salida) (vh : ext) :
  hijos n = t ++ [h] ->
  ext_geb alfa beta = true ->
  alfa_beta_reverso h alfa beta = Ok sh -> retorno sh = Some vh ->
  alfa_beta_reverso n alfa beta
  = Ok (mkSalida (Some vh)
                 (mkNodo (id n) (Some vh) (t ++ [arbol sh])
                         (es_max n) (podado n))
                 ([] :: map (cons (length t)) (visitas sh))).
Proof.
  intros Hn Hgeb Hsh Hr. rewrite alfa_beta_reverso_evalua in *.
  rewrite evalua_eq.
  assert (Hh : es_hoja n = false).
  { unfold es_hoja. rewrite Hn. destruct t; reflexivity. }
  rewrite Hh, Hn. cbn [orden]. rewrite pendientes_ultimo.
  cbn [bucle]. rewrite Hsh, Hr.
  destruct (ventana_vacia_corta (es_max n) alfa beta vh Hgeb) as [-> ->].
  rewrite (pon_app_medio t h (arbol sh) []).
  rewrite (poda_desde_app_medio t (arbol sh) []). reflexivity.
Qed.

Lemma ventana_vacia_reverso_witness :
  exists sh,
    hijos min_927 = [hoja 2 9 true; hoja 3 2 true] ++ [hoja 4 7 true] /\
    ext_geb (Fin 5) (Fin 5) = true /\
    alfa_beta_reverso (hoja 4 7 true) (Fin 5) (Fin 5) = Ok sh /\
    retorno sh = Some (Fin 7) /\
    alfa_beta_reverso min_927 (Fin 5) (Fin 5)
    = Ok (mkSalida (Some (Fin 7))
                   (mkNodo (id min_927) (Some (Fin 7))
                           ([hoja 2 9 true; hoja 3 2 true] ++ [arbol sh])
                           (es_max min_927) (podado min_927))
                   ([] :: map (cons (length [hoja 2 9 true; hoja 3 2 true]))
                              (visitas sh))).
Proof.
  eexists. split; [reflexivity|]. split; [reflexivity|].
  split; [reflexivity|]. split; [reflexivity|].
  apply (ventana_vacia_reverso min_927 (hoja 4 7 true)
           [hoja 2 9 true; hoja 3 2 true] (Fin 5) (Fin 5)); reflexivity.
Defined.

(** ** A leaf without a value *)

(** X9.  A leaf without a value: called on it, both evaluators return
    [None] and leave it as it is; but when it is the first child that a
    node's loop visits (the first of [nodo.hijos] left to right, the last
    right to left), the comparison with [None] raises [TypeError]. *)
Theorem hoja_sin_valor (h : Nodo) :
  es_hoja h = true -> valor h = None ->
  (forall alfa beta,
      alfa_beta h alfa beta = Ok (mkSalida None h [[]]) /\
      alfa_beta_reverso h alfa beta = Ok (mkSalida None h [[]])) /\
  (forall n t alfa beta,
      hijos n = h :: t -> alfa_beta n alfa beta = TypeError) /\
  (forall n t alfa beta,
      hijos n = t ++ [h] -> alfa_beta_reverso n alfa beta = TypeError).
Proof.
  intros Hh Hv.
  assert (He : forall rv alfa beta,
             evalua rv h alfa beta = Ok (mkSalida None h [[]])).
  { intros rv alfa beta. rewrite evalua_eq, Hh, Hv. reflexivity. }
  split; [|split].
  - intros alfa beta. rewrite alfa_beta_evalua, alfa_beta_reverso_evalua. auto.
  - intros n t alfa beta Hn. rewrite alfa_beta_evalua, evalua_eq.
    unfold es_hoja. rewrite Hn. cbn [orden]. rewrite pendientes_cons.
    cbn [bucle]. rewrite He. reflexivity.
  - intros n t alfa beta Hn. rewrite alfa_beta_reverso_evalua, evalua_eq.
    assert (Hhn : es_hoja n = false).
    { unfold es_hoja. rewrite Hn. destruct t; reflexivity. }
    rewrite Hhn, Hn. cbn [orden]. rewrite pendientes_ultimo.
    cbn [bucle]. rewrite He. reflexivity.
Qed.

Lemma hoja_sin_valor_witness :
  es_hoja (Nodo_init 1 None false) = true /\
  valor (Nodo_init 1 None false) = None /\
  alfa_beta (Nodo_init 1 None false) MenosInf MasInf
  = Ok (mkSalida None (Nodo_init 1 None false) [[]]) /\
  alfa_beta (interno 0 true [Nodo_init 1 None false; hoja 2 5 false])
            MenosInf MasInf = TypeError.
Proof.
  split; [reflexivity|]. split; [reflexivity|].
  destruct (hoja_sin_valor (Nodo_init 1 None false) eq_refl eq_refl)
    as (H1 & H2 & _).
  split; [apply (H1 MenosInf MasInf)|].
  apply (H2 (interno 0 true [Nodo_init 1 None false; hoja 2 5 false])
            [hoja 2 5 false] MenosInf MasInf). reflexivity.
Defined.

(** ** The windows of the recursive calls *)

Lemma bucle_en_ventana (em : bool) (alfa0 beta0 : ext)
      (pend : list (nat * llamada)) :
  forall v alfa beta hs tr,
    ext_le alfa0 alfa -> ext_le beta beta0 ->
    bucle em (map (restringe alfa0 beta0) pend) v alfa beta hs tr
    = bucle em pend v alfa beta hs tr.
Proof.
  induction pend as [|[i c] pend IH]; intros v alfa beta hs tr Ha Hb;
    [reflexivity|].
  cbn [map restringe fst snd bucle]. unfold en_ventana at 1.
  unfold ext_le in Ha, Hb. rewrite Ha, Hb. cbn [andb].
  destruct (c alfa beta) as [s|]; [|reflexivity].
  destruct (retorno s) as [vh|]; [|reflexivity].
  destruct (ext_geb _ _); [reflexivity|].
  apply IH; destruct em; trivial.
  - eapply ext_le_trans; [exact Ha | apply maximo_cota_l].
  - eapply ext_le_trans; [apply minimo_cota_l | exact Hb].
Qed.

Lemma ext_le_refl (a : ext) : ext_le a a.
Proof. ext_solve. Qed.

Lemma restringe_pendientes (alfa0 beta0 : ext) (f : Nodo -> llamada)
      (hs : list Nodo) :
  map (restringe alfa0 beta0) (pendientes f hs)
  = pendientes (fun h => en_ventana alfa0 beta0 (f h)) hs.
Proof.
  unfold pendientes. generalize 0.
  induction hs as [|h t IH]; intros k; simpl; [reflexivity|].
  f_equal. apply IH.
Qed.

(** X10.  The bounds only narrow.  From any state of the loop of a node,
    every later call on a child receives bounds inside the current ones
    ([alfa] does not decrease, [beta] does not increase): making those calls
    fail outside the current window changes nothing.  So an evaluation of a
    node is the evaluation in which no child is searched outside the window
    of the node. *)
Theorem ventanas_se_estrechan (o : Orden) (n : Nodo) (alfa beta : ext) :
  (forall em pend v a b hs tr,
      ext_le alfa a -> ext_le b beta ->
      bucle em (map (restringe alfa beta) pend) v a b hs tr
      = bucle em pend v a b hs tr) /\
  (es_hoja n = false ->
   evaluate o n alfa beta
   = cierra n
       (bucle (es_max n)
              (orden (es_reverso o)
                     (pendientes (fun h => en_ventana alfa beta (evaluate o h))
                                 (hijos n)))
              (inicial (es_max n)) alfa beta (hijos n) [[]])).
Proof.
  split; [intros; apply bucle_en_ventana; assumption|].
  intros Hh. rewrite evaluate_evalua, evalua_eq, Hh. f_equal.
  rewrite <- (bucle_en_ventana (es_max n) alfa beta _ _ alfa beta _ _
                (ext_le_refl alfa) (ext_le_refl beta)).
  apply bucle_ext.
  assert (Hm : forall (l : list (nat * llamada)),
             map (restringe alfa beta) (orden (es_reverso o) l)
             = orden (es_reverso o) (map (restringe alfa beta) l)).
  { intros l. destruct (es_reverso o); simpl; [apply map_rev | reflexivity]. }
  rewrite Hm, restringe_pendientes. apply Forall2_orden. unfold pendientes.
  apply pendientes_Forall2. apply Forall_Forall2_diag, Forall_forall.
  intros h _ i. split; [reflexivity|]. intros a b. simpl.
  unfold en_ventana. rewrite evaluate_evalua. reflexivity.
Qed.

Lemma ventanas_se_estrechan_witness :
  es_hoja arbol_3529 = false /\
  evaluate Adelante arbol_3529 MenosInf MasInf
  = cierra arbol_3529
      (bucle (es_max arbol_3529)
             (orden (es_reverso Adelante)
                    (pendientes
                       (fun h => en_ventana MenosInf MasInf (evaluate Adelante h))
                       (hijos arbol_3529)))
             (inicial (es_max arbol_3529)) MenosInf MasInf
             (hijos arbol_3529) [[]]).
Proof.
  split; [reflexivity|].
  apply (proj2 (ventanas_se_estrechan Adelante arbol_3529 MenosInf MasInf)).
  reflexivity.
Defined.

(** ** The value returned is the value of a leaf *)

Lemma mejor_elige (em : bool) (a b : ext) :
  mejor em a b = a \/ mejor em a b = b.
Proof.
  unfold mejor, maximo, minimo. destruct em;
    match goal with |- context [if ?c then _ else _] => destruct c end; auto.
Qed.

Lemma fold_mejor_In (em : bool) (ms : list ext) :
  forall a, fold_left (mejor em) ms a = a \/ In (fold_left (mejor em) ms a) ms.
Proof.
  induction ms as [|m ms IH]; intros a; simpl; [auto|].
  destruct (IH (mejor em a m)) as [H|H]; [|auto].
  rewrite H. destruct (mejor_elige em a m) as [->| ->]; auto.
Qed.

Lemma mejor_inicial (em : bool) (m : ext) : mejor em (inicial em) m = m.
Proof. destruct em; ext_solve. Qed.

Lemma minimax_es_hoja (n : Nodo) :
  bien_formado n = true ->
  forall m, minimax n = Some m ->
    exists x, In x (nodos n) /\ es_hoja x = true /\ valor x = Some m.
Proof.
  induction n as [n IH] using Nodo_ind_hijos.
  rewrite bien_formado_eq, minimax_eq, nodos_eq.
  destruct (es_hoja n) eqn:Hh.
  - intros _ m Hm. exists n. repeat split; trivial. left; reflexivity.
  - intros Hbf m Hm.
    destruct (hijos_buscan (evalua false) _
                (Forall_impl _ (fun h _ => evalua_valor false h) IH) Hbf)
      as (ms & Hms & _).
    rewrite Hms, combina_Some in Hm. injection Hm as Hm.
    assert (Hin : In m ms).
    { destruct ms as [|m0 ms].
      - apply es_hoja_false in Hh. destruct (hijos n); [congruence | discriminate].
      - simpl in Hm. rewrite mejor_inicial in Hm.
        destruct (fold_mejor_In (es_max n) ms m0) as [H|H];
          rewrite Hm in H; [left; congruence | right; exact H]. }
    assert (Hin' : In (Some m) (map minimax (hijos n))).
    { rewrite Hms. apply in_map. exact Hin. }
    apply in_map_iff in Hin' as (h & Hhm & Hinh).
    rewrite Forall_forall in IH. rewrite forallb_forall in Hbf.
    destruct (IH h Hinh (Hbf h Hinh) m Hhm) as (x & Hx & Hxh & Hxv).
    exists x. repeat split; trivial. right. apply in_flat_map. eauto.
Qed.

(** X11.  On a well-formed tree, in either order, what the evaluation from
    (-inf, +inf) returns is the value stored in one of the leaves of the
    tree. *)
Theorem retorno_es_una_hoja (o : Orden) (n : Nodo) :
  bien_formado n = true ->
  exists s m x,
    evaluate o n MenosInf MasInf = Ok s /\ retorno s = Some m /\
    In x (nodos n) /\ es_hoja x = true /\ valor x = Some m.
Proof.
  intros Hbf.
  destruct (evalua_minimax (es_reverso o) n Hbf) as (s & m & Hs & Hr & Hm).
  destruct (minimax_es_hoja n Hbf m Hm) as (x & Hx).
  exists s, m, x. rewrite evaluate_evalua. auto.
Qed.

Lemma retorno_es_una_hoja_witness :
  bien_formado arbol_92735 = true /\
  exists s m x,
    evaluate Reverso arbol_92735 MenosInf MasInf = Ok s /\
    retorno s = Some m /\
    In x (nodos arbol_92735) /\ es_hoja x = true /\ valor x = Some m.
Proof.
  split; [reflexivity|].
  apply (retorno_es_una_hoja Reverso arbol_92735). reflexivity.
Defined.

(** ** The leaves that the generator draws *)

Lemma filter_flat_map {A B : Type} (p : B -> bool) (g : A -> list B)
      (l : list A) :
  filter p (flat_map g l) = flat_map (fun x => filter p (g x)) l.
Proof.
  induction l as [|x l IH]; simpl; [reflexivity|].
  rewrite filter_app, IH. reflexivity.
Qed.

Lemma sorteos_app (sorteo : nat -> Z) (k a b : nat) :
  sorteos sorteo k (a + b) = sorteos sorteo k a ++ sorteos sorteo (k + a) b.
Proof. unfold sorteos. rewrite seq_app, map_app. reflexivity. Qed.

Section RepiteSorteos.

Variables (sorteo : nat -> Z) (L T : nat)
          (genera_hijo : estado -> option (Nodo * estado)).
Hypothesis genera_hijo_sortea :
  forall st, exists r, genera_hijo st = Some r /\ sortea_bien sorteo L T st r.

Lemma repite_sorteos (k : nat) :
  forall nodo st,
    exists hs st',
      repite k genera_hijo nodo st
      = Some (mkNodo (id nodo) (valor nodo) (hijos nodo ++ hs) (es_max nodo)
                     (podado nodo), st') /\
      length hs = k /\
      map valor (flat_map hojas hs) = sorteos sorteo (sorteados st) (k * L) /\
      sorteados st' = sorteados st + k * L /\
      length (flat_map nodos hs) = k * T.
Proof.
  induction k as [|k IH]; intros nodo st.
  - exists [], st. simpl. rewrite app_nil_r, Nat.add_0_r.
    destruct nodo; repeat split; reflexivity.
  - simpl repite.
    destruct (genera_hijo_sortea st) as ([h st1] & -> & Hv & Hs & Hn).
    simpl in Hv, Hs, Hn.
    destruct (IH (anadir_hijo nodo h) st1) as (hs & st' & Hr & Hlen & Hvs & Hss & Hns).
    exists (h :: hs), st'. rewrite Hr. simpl hijos. rewrite <- app_assoc.
    split; [reflexivity|]. split; [simpl; congruence|].
    simpl flat_map. rewrite map_app, length_app, Hv, Hvs, Hs, Hss, Hn, Hns.
    simpl Nat.mul. rewrite sorteos_app. repeat split; lia.
Qed.

End RepiteSorteos.

Lemma generar_subarbol_sortea (factor profundidad : Z) (sorteo : nat -> Z)
      (d : nat) :
  (1 <= factor)%Z ->
  forall combustible prof_actual em st,
    (prof_actual + Z.of_nat d = profundidad)%Z ->
    d < combustible ->
    exists r,
      _generar_subarbol factor profundidad sorteo combustible prof_actual em st
      = Some r /\
      sortea_bien sorteo (Z.to_nat factor ^ d) (tamano (Z.to_nat factor) d) st r.
Proof.
  intros Hf.
  induction d as [|d IH]; intros [|c] prof em st Hprof Hc; try lia.
  - cbn [_generar_subarbol].
    replace (profundidad <=? prof)%Z with true
      by (symmetry; apply Z.leb_le; lia).
    eexists. split; [reflexivity|].
    unfold sortea_bien, hojas, sorteos. simpl. repeat split. lia.
  - cbn [_generar_subarbol].
    replace (profundidad <=? prof)%Z with false
      by (symmetry; apply Z.leb_gt; lia).
    destruct (repite_sorteos sorteo (Z.to_nat factor ^ d)
                (tamano (Z.to_nat factor) d)
                (_generar_subarbol factor profundidad sorteo c (prof + 1)
                                   (negb em))
                (fun st0 => IH c (prof + 1)%Z (negb em) st0
                               ltac:(lia) ltac:(lia))
                (Z.to_nat factor)
                (Nodo_init (contador_id st) None em)
                (mkEstado (contador_id st + 1) (sorteados st)))
      as (hs & st' & Hr & Hlen & Hv & Hs & Hn).
    rewrite Hr. eexists. split; [reflexivity|].
    unfold sortea_bien, hojas. cbn [fst snd]. rewrite nodos_eq.
    cbn [hijos Nodo_init app sorteados id valor es_max podado] in *.
    assert (Hne : es_hoja (mkNodo (contador_id st) None hs em false) = false).
    { unfold es_hoja. simpl. destruct hs; [simpl in Hlen; lia | reflexivity]. }
    cbn [filter]. rewrite Hne, filter_flat_map.
    change (fun x => filter es_hoja (nodos x)) with hojas.
    rewrite Hv, Hs. cbn [length tamano Nat.pow]. rewrite Hn.
    repeat split; reflexivity.
Qed.

Lemma completo_bien_formado (factor d : nat) :
  1 <= factor ->
  forall em n, completo factor d em n ->
    bien_formado n = true /\ recien_creado n = true.
Proof.
  intros Hf. induction d as [|d IH]; intros em n; simpl;
    rewrite bien_formado_eq, recien_creado_eq.
  - intros (_ & Hp & Hh & Hv). unfold es_hoja. rewrite Hh, Hp. simpl.
    destruct (valor n); [auto | congruence].
  - intros (_ & Hp & Hlen & Hv & HF).
    assert (Hne : es_hoja n = false).
    { unfold es_hoja. destruct (hijos n); [simpl in Hlen; lia | reflexivity]. }
    rewrite Hne, Hp, Hv. simpl. rewrite !forallb_forall.
    rewrite Forall_forall in HF.
    split; intros h Hh; apply (IH _ _ (HF h Hh)).
Qed.

Lemma crear_arbol_hojas_aux (factor_ramificacion profundidad : Z)
      (sorteo : nat -> Z) (combustible : nat) (raiz_es_max : bool) :
  (1 <= factor_ramificacion)%Z -> (0 <= profundidad)%Z ->
  Z.to_nat profundidad < combustible ->
  exists raiz,
    crear_arbol factor_ramificacion profundidad sorteo combustible raiz_es_max
    = Some raiz /\
    bien_formado raiz = true /\ recien_creado raiz = true /\
    map valor (hojas raiz)
    = sorteos sorteo 0 (Z.to_nat factor_ramificacion ^ Z.to_nat profundidad).
Proof.
  intros Hf Hd Hc. unfold crear_arbol.
  destruct (generar_subarbol_sortea factor_ramificacion profundidad sorteo
              (Z.to_nat profundidad) Hf combustible 0 raiz_es_max (mkEstado 0 0))
    as ([raiz st] & Hg & Hv & _ & _); [lia | exact Hc |].
  destruct (generar_subarbol_bien factor_ramificacion profundidad sorteo
              (Z.to_nat profundidad) combustible 0 raiz_es_max (mkEstado 0 0))
    as (r' & Hg' & Hcomp & _); [lia | exact Hc |].
  rewrite Hg in Hg'. injection Hg' as <-. rewrite Hg.
  cbn [fst sorteados] in *. exists raiz. simpl.
  destruct (completo_bien_formado (Z.to_nat factor_ramificacion) _
              ltac:(lia) _ _ Hcomp) as [Hbf Hrc].
  repeat split; trivial.
Qed.

(** X12.  With a branching factor of at least 1 and a depth of at least 0
    (and fuel), the tree that [crear_arbol] returns has
    [factor_ramificacion ^ profundidad] leaves, which hold, from left to
    right, the successive draws of the random source, the first one first,
    and 1 + f + ... + f^d nodes in all. *)
Theorem crear_arbol_hojas (factor_ramificacion profundidad : Z)
        (sorteo : nat -> Z) (combustible : nat) (raiz_es_max : bool) :
  (1 <= factor_ramificacion)%Z -> (0 <= profundidad)%Z ->
  Z.to_nat profundidad < combustible ->
  exists raiz,
    crear_arbol factor_ramificacion profundidad sorteo combustible raiz_es_max
    = Some raiz /\
    map valor (hojas raiz)
    = sorteos sorteo 0 (Z.to_nat factor_ramificacion ^ Z.to_nat profundidad) /\
    length (hojas raiz)
    = Z.to_nat factor_ramificacion ^ Z.to_nat profundidad /\
    length (nodos raiz)
    = tamano (Z.to_nat factor_ramificacion) (Z.to_nat profundidad).
Proof.
  intros Hf Hd Hc. unfold crear_arbol.
  destruct (generar_subarbol_sortea factor_ramificacion profundidad sorteo
              (Z.to_nat profundidad) Hf combustible 0 raiz_es_max (mkEstado 0 0))
    as ([raiz st] & -> & Hv & _ & Hn); [lia | exact Hc |].
  cbn [fst sorteados] in Hv, Hn. exists raiz. simpl.
  repeat split; trivial.
  rewrite <- (length_map valor), Hv. unfold sorteos.
  rewrite length_map, length_seq. reflexivity.
Qed.

Lemma crear_arbol_hojas_witness :
  (1 <= 3)%Z /\ (0 <= 2)%Z /\ Z.to_nat 2 < 3 /\
  exists raiz,
    crear_arbol 3 2 (fun k => Z.of_nat k) 3 true = Some raiz /\
    map valor (hojas raiz)
    = sorteos (fun k => Z.of_nat k) 0 (Z.to_nat 3 ^ Z.to_nat 2) /\
    length (hojas raiz) = Z.to_nat 3 ^ Z.to_nat 2 /\
    length (nodos raiz) = tamano (Z.to_nat 3) (Z.to_nat 2).
Proof.
  split; [lia|]. split; [lia|]. split; [simpl; lia|].
  apply (crear_arbol_hojas 3 2 (fun k => Z.of_nat k) 3 true);
    [lia | lia | simpl; lia].
Defined.

(** X13.  The script: on the tree that [crear_arbol] returns (branching
    factor at least 1, depth at least 0), which is well formed and fresh,
    [alfa_beta] and, on a copy, [alfa_beta_reverso] both return, and return
    the same value, which is one of the values drawn for the leaves. *)
Theorem crear_y_evaluar (factor_ramificacion profundidad : Z)
        (sorteo : nat -> Z) (combustible : nat) (raiz_es_max : bool) :
  (1 <= factor_ramificacion)%Z -> (0 <= profundidad)%Z ->
  Z.to_nat profundidad < combustible ->
  exists raiz s1 s2 k,
    crear_arbol factor_ramificacion profundidad sorteo combustible raiz_es_max
    = Some raiz /\
    bien_formado raiz = true /\ recien_creado raiz = true /\
    alfa_beta raiz MenosInf MasInf = Ok s1 /\
    alfa_beta_reverso raiz MenosInf MasInf = Ok s2 /\
    k < Z.to_nat factor_ramificacion ^ Z.to_nat profundidad /\
    retorno s1 = Some (Fin (sorteo k)) /\
    retorno s2 = Some (Fin (sorteo k)).
Proof.
  intros Hf Hd Hc.
  destruct (crear_arbol_hojas_aux factor_ramificacion profundidad sorteo
              combustible raiz_es_max Hf Hd Hc) as (raiz & Hcr & Hbf & Hrc & Hv).
  destruct (evalua_minimax false raiz Hbf) as (s1 & m1 & Hs1 & Hr1 & Hm1).
  destruct (evalua_minimax true raiz Hbf) as (s2 & m2 & Hs2 & Hr2 & Hm2).
  assert (m2 = m1) by congruence. subst m2.
  destruct (minimax_es_hoja raiz Hbf m1 Hm1) as (x & Hx & Hxh & Hxv).
  assert (Hin : In (Some m1) (map valor (hojas raiz))).
  { rewrite <- Hxv. apply in_map. apply filter_In. auto. }
  rewrite Hv in Hin. apply in_map_iff in Hin as (k & Hk & Hkin).
  apply in_seq in Hkin. injection Hk as <-.
  exists raiz, s1, s2, k.
  rewrite alfa_beta_evalua, alfa_beta_reverso_evalua.
  repeat split; trivial. lia.
Qed.

Lemma crear_y_evaluar_witness :
  (1 <= 3)%Z /\ (0 <= 2)%Z /\ Z.to_nat 2 < 3 /\
  exists raiz s1 s2 k,
    crear_arbol 3 2 (fun k => Z.of_nat k) 3 true = Some raiz /\
    bien_formado raiz = true /\ recien_creado raiz = true /\
    alfa_beta raiz MenosInf MasInf = Ok s1 /\
    alfa_beta_reverso raiz MenosInf MasInf = Ok s2 /\
    k < Z.to_nat 3 ^ Z.to_nat 2 /\
    retorno s1 = Some (Fin (Z.of_nat k)) /\
    retorno s2 = Some (Fin (Z.of_nat k)).
Proof.
  split; [lia|]. split; [lia|]. split; [simpl; lia|].
  apply (crear_y_evaluar 3 2 (fun k => Z.of_nat k) 3 true);
    [lia | lia | simpl; lia].
Defined.

(** X14.  A branching factor of 0 or less with a depth of 1 or more:
    [range(factor_ramificacion)] is empty, and [crear_arbol] returns a
    single node with no children and no value, which is not a well-formed
    tree: called on it, [alfa_beta] returns [None]. *)
Theorem crear_arbol_sin_ramas (factor_ramificacion profundidad : Z)
        (sorteo : nat -> Z) (combustible : nat) (raiz_es_max : bool)
        (alfa beta : ext) :
  (factor_ramificacion <= 0)%Z -> (1 <= profundidad)%Z ->
  crear_arbol factor_ramificacion profundidad sorteo (S combustible)
              raiz_es_max
  = Some (Nodo_init 0 None raiz_es_max) /\
  bien_formado (Nodo_init 0 None raiz_es_max) = false /\
  alfa_beta (Nodo_init 0 None raiz_es_max) alfa beta
  = Ok (mkSalida None (Nodo_init 0 None raiz_es_max) [[]]).
Proof.
  intros Hf Hd. unfold crear_arbol. cbn [_generar_subarbol].
  replace (profundidad <=? 0)%Z with false by (symmetry; apply Z.leb_gt; lia).
  replace (Z.to_nat factor_ramificacion) with 0 by lia.
  repeat split.
Qed.

Lemma crear_arbol_sin_ramas_witness :
  (0 <= 0)%Z /\ (1 <= 2)%Z /\
  crear_arbol 0 2 (fun k => Z.of_nat k) 1 true = Some (Nodo_init 0 None true) /\
  bien_formado (Nodo_init 0 None true) = false /\
  alfa_beta (Nodo_init 0 None true) MenosInf MasInf
  = Ok (mkSalida None (Nodo_init 0 None true) [[]]).
Proof.
  split; [lia|]. split; [lia|].
  apply (crear_arbol_sin_ramas 0 2 (fun k => Z.of_nat k) 0 true
           MenosInf MasInf); lia.
Defined.

(** ** Printing *)

Lemma append_assoc (a b c : String.string) :
  (a +++ b) +++ c = a +++ (b +++ c).
Proof. induction a as [|x a IH]; simpl; [reflexivity | rewrite IH; reflexivity]. Qed.

Lemma ultimo_append (u v : String.string) :
  v <> String.EmptyString -> ultimo (u +++ v) = ultimo v.
Proof.
  intros Hv. induction u as [|x u IH]; simpl; [reflexivity|].
  rewrite <- IH. destruct (u +++ v) eqn:Huv; [|reflexivity].
  destruct u; simpl in Huv; [congruence | discriminate].
Qed.

Lemma linea_forma (formato_2f : ext -> String.string) (n : Nodo) (k : nat)
      (l : String.string) :
  linea formato_2f n k = Ok l ->
  exists c, l = c +++ " "%string +++ texto_estado n.
Proof.
  unfold linea. destruct (es_hoja n).
  - destruct (valor n) as [v|]; [|discriminate]. intros [= <-].
    exists (sangria k +++ "Hoja "%string +++ texto_id (id n) +++ ": "%string
            +++ formato_2f v).
    rewrite !append_assoc. reflexivity.
  - assert (Hsin : exists c,
               sangria k +++ "Nodo "%string
               +++ (if es_max n then "MAX"%string else "MIN"%string)
               +++ " "%string +++ texto_id (id n) +++ " "%string
               +++ texto_estado n
               = c +++ " "%string +++ texto_estado n).
    { exists (sangria k +++ "Nodo "%string
              +++ (if es_max n then "MAX"%string else "MIN"%string)
              +++ " "%string +++ texto_id (id n)).
      rewrite !append_assoc. reflexivity. }
    destruct (valor n) as [v|]; [destruct (es_cierto v)|];
      intros [= <-]; trivial.
    exists (sangria k +++ "Nodo "%string
            +++ (if es_max n then "MAX"%string else "MIN"%string)
            +++ " "%string +++ texto_id (id n) +++ ": "%string
            +++ formato_2f v).
    rewrite !append_assoc. reflexivity.
Qed.

Lemma linea_marca (formato_2f : ext -> String.string) (n : Nodo) (k : nat)
      (l : String.string) :
  linea formato_2f n k = Ok l ->
  (termina_en "[PODADO]"%string l <-> podado n = true).
Proof.
  intros Hl. destruct (linea_forma _ _ _ _ Hl) as (c & ->).
  unfold texto_estado, termina_en. destruct (podado n).
  - split; [reflexivity|]. intros _. exists (c +++ " "%string).
    rewrite append_assoc. reflexivity.
  - split; [|discriminate]. intros (u & Hu). exfalso.
    apply (f_equal ultimo) in Hu.
    rewrite (ultimo_append c) in Hu by discriminate.
    rewrite (ultimo_append u) in Hu by discriminate. discriminate Hu.
Qed.

Lemma linea_TypeError (formato_2f : ext -> String.string) (n : Nodo) (k : nat) :
  linea formato_2f n k = TypeError <-> (es_hoja n = true /\ valor n = None).
Proof.
  unfold linea. destruct (es_hoja n).
  - destruct (valor n); split; try discriminate; auto.
    intros [_ [=]].
  - split; [|intros [[=] _]].
    destruct (valor n) as [v|]; [destruct (es_cierto v)|]; discriminate.
Qed.

Section ImpresionLineas.

Variable formato_2f : ext -> String.string.

Lemma imprimir_arbol_eq (n : Nodo) (k : nat) :
  imprimir_arbol formato_2f n k =
  match linea formato_2f n k with
  | TypeError => TypeError
  | Ok l =>
      match en_orden (map (fun hijo => imprimir_arbol formato_2f hijo (S k))
                          (hijos n)) with
      | TypeError => TypeError
      | Ok ls => Ok (l :: ls)
      end
  end.
Proof. destruct n; reflexivity. Qed.

Lemma en_orden_hijos (P : Nodo -> String.string -> Prop) (k : nat)
      (hs : list Nodo) :
  Forall (fun h => forall j ls, imprimir_arbol formato_2f h j = Ok ls ->
                                Forall2 P (nodos h) ls) hs ->
  forall ls,
    en_orden (map (fun hijo => imprimir_arbol formato_2f hijo k) hs) = Ok ls ->
    Forall2 P (flat_map nodos hs) ls.
Proof.
  induction 1 as [|h t Hh _ IH]; simpl; intros ls.
  - intros [= <-]. constructor.
  - destruct (imprimir_arbol formato_2f h k) as [l1|] eqn:H1; [|discriminate].
    destruct (en_orden _) as [l2|]; [|discriminate]. intros [= <-].
    apply Forall2_app; [apply (Hh k); exact H1 | apply IH; reflexivity].
Qed.

Lemma imprimir_arbol_lineas (n : Nodo) :
  forall k ls,
    imprimir_arbol formato_2f n k = Ok ls ->
    Forall2 (fun x l => exists j, linea formato_2f x j = Ok l) (nodos n) ls.
Proof.
  induction n as [n IH] using Nodo_ind_hijos. intros k ls.
  rewrite imprimir_arbol_eq, nodos_eq.
  destruct (linea formato_2f n k) as [l|] eqn:Hl; [|discriminate].
  destruct (en_orden _) as [ls'|] eqn:Hls; [|discriminate]. intros [= <-].
  constructor; [eauto|]. eapply en_orden_hijos; [exact IH | exact Hls].
Qed.

Lemma en_orden_bien (k : nat) (hs : list Nodo) :
  Forall (fun h => forall j,
            if bien_formado h
            then exists ls, imprimir_arbol formato_2f h j = Ok ls /\
                            length ls = length (nodos h)
            else imprimir_arbol formato_2f h j = TypeError) hs ->
  if forallb bien_formado hs
  then exists ls,
      en_orden (map (fun hijo => imprimir_arbol formato_2f hijo k) hs) = Ok ls /\
      length ls = length (flat_map nodos hs)
  else en_orden (map (fun hijo => imprimir_arbol formato_2f hijo k) hs)
       = TypeError.
Proof.
  induction 1 as [|h t Hh _ IH]; simpl; [eexists; split; reflexivity|].
  specialize (Hh k). destruct (bien_formado h); simpl.
  - destruct Hh as (l1 & -> & Hlen1). destruct (forallb bien_formado t).
    + destruct IH as (l2 & -> & Hlen2). eexists. split; [reflexivity|].
      rewrite !length_app. congruence.
    + rewrite IH. reflexivity.
  - rewrite Hh. reflexivity.
Qed.

Lemma imprimir_arbol_bien (n : Nodo) :
  forall k,
    if bien_formado n
    then exists ls, imprimir_arbol formato_2f n k = Ok ls /\
                    length ls = length (nodos n)
    else imprimir_arbol formato_2f n k = TypeError.
Proof.
  induction n as [n IH] using Nodo_ind_hijos. intros k.
  rewrite bien_formado_eq, imprimir_arbol_eq, nodos_eq.
  pose proof (linea_TypeError formato_2f n k) as HT.
  pose proof (en_orden_bien (S k) (hijos n) IH) as Hh.
  destruct (es_hoja n) eqn:Hhoja.
  - destruct (valor n) as [v|] eqn:Hv.
    + destruct (linea formato_2f n k) as [l|]; [|destruct HT as [HT _]; destruct (HT eq_refl); discriminate].
      apply es_hoja_true in Hhoja. rewrite Hhoja. simpl.
      eexists. split; reflexivity.
    + rewrite (proj2 HT); auto.
  - destruct (linea formato_2f n k) as [l|];
      [|destruct HT as [HT _]; destruct (HT eq_refl); discriminate].
    destruct (forallb bien_formado (hijos n)).
    + destruct Hh as (ls & -> & Hlen). eexists. split; [reflexivity|].
      simpl. congruence.
    + rewrite Hh. reflexivity.
Qed.

End ImpresionLineas.

(** X15.  [imprimir_arbol] raises [TypeError] exactly on the trees that have
    a leaf without a value; on every other tree it prints one line per
    node. *)
Theorem imprimir_arbol_total (formato_2f : ext -> String.string) (n : Nodo)
        (nivel : nat) :
  (bien_formado n = false ->
   imprimir_arbol formato_2f n nivel = TypeError) /\
  (bien_formado n = true ->
   exists ls, imprimir_arbol formato_2f n nivel = Ok ls /\
              length ls = length (nodos n)).
Proof.
  pose proof (imprimir_arbol_bien formato_2f n nivel) as H.
  destruct (bien_formado n); split; intros; trivial; discriminate.
Qed.

Lemma imprimir_arbol_total_witness :
  bien_formado arbol_3529 = true /\
  exists ls, imprimir_arbol (fun _ => "0.00"%string) arbol_3529 0 = Ok ls /\
             length ls = length (nodos arbol_3529).
Proof.
  split; [reflexivity|].
  apply (proj2 (imprimir_arbol_total (fun _ => "0.00"%string) arbol_3529 0)).
  reflexivity.
Defined.

Lemma lineas_marcadas (formato_2f : ext -> String.string) (n : Nodo)
      (nivel : nat) (ls : list String.string) :
  imprimir_arbol formato_2f n nivel = Ok ls ->
  Forall2 (fun x l => termina_en "[PODADO]"%string l <-> podado x = true)
          (nodos n) ls.
Proof.
  intros H. apply imprimir_arbol_lineas in H. revert H.
  apply Forall2_impl. intros x l (j & Hl). eapply linea_marca. exact Hl.
Qed.

(** X16.  The lines that [imprimir_arbol] prints are those of the nodes in
    pre-order, and a line ends with [[PODADO]] exactly when its node is
    marked. *)
Theorem imprimir_arbol_marcas (formato_2f : ext -> String.string) (n : Nodo)
        (nivel : nat) (ls : list String.string) :
  imprimir_arbol formato_2f n nivel = Ok ls ->
  Forall2 (fun x l => termina_en "[PODADO]"%string l <-> podado x = true)
          (nodos n) ls.
Proof.
  apply lineas_marcadas.
Qed.

Lemma imprimir_arbol_marcas_witness :
  exists ls,
    imprimir_arbol (fun _ => "0.00"%string) (marca_podado segundo_min) 1
    = Ok ls /\
    Forall2 (fun x l => termina_en "[PODADO]"%string l <-> podado x = true)
            (nodos (marca_podado segundo_min)) ls.
Proof.
  eexists. split; [vm_compute; reflexivity|].
  apply (imprimir_arbol_marcas (fun _ => "0.00"%string)
           (marca_podado segundo_min) 1). reflexivity.
Defined.

(** An internal node whose value is zero is printed as one without a
    value. *)
Example imprimir_valor_cero (formato_2f : ext -> String.string) (i : Z)
        (h : Nodo) (t : list Nodo) (em pd : bool) (nivel : nat) :
  imprimir_arbol formato_2f (mkNodo i (Some (Fin 0)) (h :: t) em pd) nivel
  = imprimir_arbol formato_2f (mkNodo i None (h :: t) em pd) nivel.
Proof. reflexivity. Qed.

Lemma evoluciona_bien_formado (x : Nodo) :
  forall y, evoluciona x y -> bien_formado x = true -> bien_formado y = true.
Proof.
  induction x as [x IH] using Nodo_ind_hijos. intros y Hxy.
  pose proof (evoluciona_es_hoja _ _ Hxy) as Hh.
  inversion Hxy as [? ? Hid Hem Hv Hp Hhs]; subst.
  rewrite (bien_formado_eq x), (bien_formado_eq y), Hh.
  destruct (es_hoja x).
  - rewrite (Hv eq_refl). trivial.
  - revert Hhs IH. generalize (hijos x) (hijos y). intros l1 l2 HF.
    induction HF as [|a b t1 t2 Hab _ IHt]; simpl; [trivial|].
    intros HI. rewrite !andb_true_iff. intros [Ha Ht]. split.
    + apply (Forall_inv HI b); assumption.
    + apply IHt; [apply (Forall_inv_tail HI) | exact Ht].
Qed.

(** X17.  The script, after evaluating: on a well-formed tree, in either
    order and any window, the evaluation returns and [imprimir_arbol] on
    the tree it leaves does not raise, prints one line per node of the
    tree, and the lines that end with [[PODADO]] are those of the nodes
    that the evaluation left marked. *)
Theorem evaluar_e_imprimir (formato_2f : ext -> String.string) (o : Orden)
        (n : Nodo) (alfa beta : ext) :
  bien_formado n = true ->
  exists s ls,
    evaluate o n alfa beta = Ok s /\
    imprimir_arbol formato_2f (arbol s) 0 = Ok ls /\
    length ls = length (nodos n) /\
    Forall2 (fun x l => termina_en "[PODADO]"%string l <-> podado x = true)
            (nodos (arbol s)) ls.
Proof.
  intros Hbf. destruct (evaluate_total o n alfa beta Hbf) as (s & Hs).
  pose proof Hs as Hs'. rewrite evaluate_evalua in Hs'.
  pose proof (evalua_evoluciona _ _ _ _ _ Hs') as He.
  pose proof (evoluciona_bien_formado _ _ He Hbf) as Hbf'.
  pose proof (imprimir_arbol_bien formato_2f (arbol s) 0) as Hi.
  rewrite Hbf' in Hi. destruct Hi as (ls & Hls & Hlen).
  exists s, ls. repeat split; trivial.
  - rewrite Hlen. apply evoluciona_nodos_length. exact He.
  - eapply lineas_marcadas. exact Hls.
Qed.

Lemma evaluar_e_imprimir_witness :
  bien_formado arbol_3529 = true /\
  exists s ls,
    evaluate Adelante arbol_3529 MenosInf MasInf = Ok s /\
    imprimir_arbol (fun _ => "0.00"%string) (arbol s) 0 = Ok ls /\
    length ls = length (nodos arbol_3529) /\
    Forall2 (fun x l => termina_en "[PODADO]"%string l <-> podado x = true)
            (nodos (arbol s)) ls.
Proof.
  split; [reflexivity|].
  apply (evaluar_e_imprimir (fun _ => "0.00"%string) Adelante arbol_3529
           MenosInf MasInf). reflexivity.
Defined.
